(** * Penales 1v1 server: the match lifecycle engine

    A shallow embedding of the two revisions of the server kept in the
    repository, [src/server.js] and [src/unnamed/part_000].  The two files
    share every function but [hello], the body of the [join_queue] loop,
    the input clamping at the head of [resolveShot] and the id generator;
    the functions below take a [Revision] wherever the text differs.

    Conventions of the embedding.
    - A JavaScript number is [NaN], an infinity, or a finite value held as
      an exact rational: clamping and comparisons are exact on doubles, the
      rounding of the products and sums of [resolveShot] is not modelled.
    - Match objects live in a heap [objs] (address = index); the global
      [matches] object maps a key to an address and keeps the keys in the
      order [Object.values] enumerates them.
    - [Math.random], the id generator, [Date.now], the string-to-number
      conversion and [String.prototype.trim] belong to the host and are
      fields of a [Host]; the world counts how many values it has drawn.
    - A handler either completes ([Done]) or is aborted by a [TypeError]
      ([Thrown]); both carry the world as the handler left it.
    - [matches] is a plain object: besides the matches stored in it, a read
      [matches[key]] finds the members of [Object.prototype].
    - Socket.IO connection ids are non-empty strings, so they are always
      truthy and only their identity matters: they are natural numbers here.
      [socket.join] has no observable effect (nothing is ever emitted to a
      match room) and is left out, as is the [uids] field, which is never
      read or written after creation. *)

From Stdlib Require Import ZArith QArith Qround Lia Lqa Ascii.
From stdpp Require Import base option list gmap strings.

Local Open Scope Z_scope.

(** ** JavaScript values *)

Inductive number : Type :=
| NaN
| NegInf
| Fin (q : Q)
| PosInf.

(** What a client can put in a payload field.  An object or array is
    represented by the number [Number(...)] converts it to. *)
Inductive jsval : Type :=
| VUndefined
| VNull
| VBool (b : bool)
| VNumber (x : number)
| VString (s : string)
| VObject (prim : number).

Definition Qzero (q : Q) : bool := Qeq_bool q 0.
Definition Qpos (q : Q) : bool := negb (Qle_bool q 0).
Definition Qltb (x y : Q) : bool := negb (Qle_bool y x).

Definition num_truthy (x : number) : bool :=
  match x with
  | NaN => false
  | Fin q => negb (Qzero q)
  | NegInf | PosInf => true
  end.

Definition truthy (v : jsval) : bool :=
  match v with
  | VUndefined | VNull => false
  | VBool b => b
  | VNumber x => num_truthy x
  | VString s => negb (String.eqb s "")
  | VObject _ => true
  end.

(** [x || 0] on numbers. *)
Definition or_zero (x : number) : number :=
  if num_truthy x then x else Fin 0.

(** [a < b] and [a > b]: false as soon as one side is [NaN]. *)
Definition num_lt (a b : number) : bool :=
  match a, b with
  | NaN, _ | _, NaN => false
  | NegInf, NegInf => false
  | NegInf, _ => true
  | _, NegInf => false
  | PosInf, _ => false
  | _, PosInf => true
  | Fin x, Fin y => Qltb x y
  end.
Definition num_gt (a b : number) : bool := num_lt b a.

Definition Math_min (a b : number) : number :=
  match a, b with
  | NaN, _ | _, NaN => NaN
  | _, _ => if num_lt b a then b else a
  end.

Definition Math_max (a b : number) : number :=
  match a, b with
  | NaN, _ | _, NaN => NaN
  | _, _ => if num_lt a b then b else a
  end.

Definition num_neg (a : number) : number :=
  match a with
  | NaN => NaN
  | NegInf => PosInf
  | PosInf => NegInf
  | Fin x => Fin (- x)
  end.

Definition num_add (a b : number) : number :=
  match a, b with
  | NaN, _ | _, NaN => NaN
  | Fin x, Fin y => Fin (x + y)
  | PosInf, NegInf | NegInf, PosInf => NaN
  | PosInf, _ | _, PosInf => PosInf
  | NegInf, _ | _, NegInf => NegInf
  end.

Definition num_sub (a b : number) : number := num_add a (num_neg b).

Definition inf_times (positive : bool) (x : Q) : number :=
  if Qzero x then NaN
  else if Bool.eqb positive (Qpos x) then PosInf else NegInf.

Definition num_mul (a b : number) : number :=
  match a, b with
  | NaN, _ | _, NaN => NaN
  | Fin x, Fin y => Fin (x * y)
  | PosInf, Fin x | Fin x, PosInf => inf_times true x
  | NegInf, Fin x | Fin x, NegInf => inf_times false x
  | PosInf, PosInf | NegInf, NegInf => PosInf
  | PosInf, NegInf | NegInf, PosInf => NegInf
  end.

(** [lo <= x <= hi] for a finite [x]; false for [NaN] and the infinities. *)
Definition in_range (lo hi : Q) (x : number) : Prop :=
  match x with
  | Fin q => (lo <= q /\ q <= hi)%Q
  | _ => False
  end.

(** ** The host *)

Record Host : Type := {
  Math_random : nat -> Q;          (* the n-th value of Math.random() *)
  fresh_id : nat -> string;        (* the n-th id: uid() or genId() *)
  Date_now : nat -> Z;             (* the n-th reading of Date.now() *)
  StringToNumber : string -> number;
  String_trim : string -> string
}.

(** [Math.random] returns a value in [0, 1).  The [uid()] of [server.js]
    builds its ids from two more values of [Math.random]; they are not
    counted in [Math_random], which lists the values the game logic sees. *)
Definition random_ok (h : Host) : Prop :=
  forall n, (0 <= Math_random h n /\ Math_random h n < 1)%Q.

(** [Number(v)]. *)
Definition Number (h : Host) (v : jsval) : number :=
  match v with
  | VUndefined => NaN
  | VNull => Fin 0
  | VBool b => if b then Fin 1 else Fin 0
  | VNumber x => x
  | VString s => StringToNumber h s
  | VObject prim => prim
  end.

(** ** The data model *)

Definition socketId : Type := nat.

Inductive Revision : Type := server_js | part_000.

Inductive Status : Type := waiting | playing | finished.
Inductive MatchType : Type := public | private.
Inductive Slot : Type := A | B.
Inductive Zone : Type := z_left | z_center | z_right.
Inductive ShotResult : Type := goal | save | miss.
Inductive TurnRole : Type := kicker | keeper.
Inductive Role : Type := role_A | role_B | role_spec.
Inductive Winner : Type := winner_slot (s : Slot) | draw.

#[global] Instance Status_eq_dec : EqDecision Status.
Proof. solve_decision. Defined.
#[global] Instance Slot_eq_dec : EqDecision Slot.
Proof. solve_decision. Defined.
#[global] Instance Zone_eq_dec : EqDecision Zone.
Proof. solve_decision. Defined.
#[global] Instance MatchType_eq_dec : EqDecision MatchType.
Proof. solve_decision. Defined.

(** [m.pending.kick]: the two numbers stored by the [kick] handler. *)
Record Kick : Type := { angleDeg : number; power01 : number }.

Record Match : Type := {
  match_id : string;
  status : Status;
  match_type : MatchType;
  code : option string;               (* null for a public match *)
  players_A : option socketId;
  players_B : option socketId;
  spectators : list socketId;         (* a Set, in insertion order *)
  round : Z;
  maxRounds : Z;
  score_A : Z;
  score_B : Z;
  turn : Slot;
  pending_kick : option Kick;
  pending_dive : option Zone          (* { dir }, already normalized *)
}.

(** [meta.matchId] is [null] after a connection, [undefined] in a meta
    created by [|| {}], or a key. *)
Inductive MatchRef : Type := ref_null | ref_undefined | ref_key (k : string).

Record Meta : Type := {
  uid : jsval;
  nick : jsval;
  matchId : MatchRef;
  role : option Role
}.

(** ** Outbound events *)

Inductive OutEvent : Type :=
| match_start (matchId : string) (youAre : Slot) (maxRounds : Z)
| your_turn (role : TurnRole) (round : Z) (youAre : Slot) (score : Z * Z)
| score_update (score : Z * Z) (round : Z) (turn : Slot)
| shot_result (result : ShotResult) (zone : Zone) (score : Z * Z)
    (round : Z) (nextTurn : Slot)
| match_over (winner : Winner) (score : Z * Z) (reason : option string)
| error_msg (message : string)
| hello_ok (serverTime : Z) (uid nick : option jsval)   (* None: field absent *)
| private_created (matchId : string) (code : option string).

(** [io.to(room).emit(e)]: the room is a player slot (possibly [null]) or a
    socket id. *)
Definition Emit : Type := (option socketId * OutEvent)%type.

(** ** Field updates *)

Definition set_status (v : Status) (m : Match) : Match :=
  {| match_id := match_id m; status := v; match_type := match_type m;
     code := code m; players_A := players_A m; players_B := players_B m;
     spectators := spectators m; round := round m; maxRounds := maxRounds m;
     score_A := score_A m; score_B := score_B m; turn := turn m;
     pending_kick := pending_kick m; pending_dive := pending_dive m |}.

Definition set_players_A (v : option socketId) (m : Match) : Match :=
  {| match_id := match_id m; status := status m; match_type := match_type m;
     code := code m; players_A := v; players_B := players_B m;
     spectators := spectators m; round := round m; maxRounds := maxRounds m;
     score_A := score_A m; score_B := score_B m; turn := turn m;
     pending_kick := pending_kick m; pending_dive := pending_dive m |}.

Definition set_players_B (v : option socketId) (m : Match) : Match :=
  {| match_id := match_id m; status := status m; match_type := match_type m;
     code := code m; players_A := players_A m; players_B := v;
     spectators := spectators m; round := round m; maxRounds := maxRounds m;
     score_A := score_A m; score_B := score_B m; turn := turn m;
     pending_kick := pending_kick m; pending_dive := pending_dive m |}.

Definition set_spectators (v : list socketId) (m : Match) : Match :=
  {| match_id := match_id m; status := status m; match_type := match_type m;
     code := code m; players_A := players_A m; players_B := players_B m;
     spectators := v; round := round m; maxRounds := maxRounds m;
     score_A := score_A m; score_B := score_B m; turn := turn m;
     pending_kick := pending_kick m; pending_dive := pending_dive m |}.

Definition set_round (v : Z) (m : Match) : Match :=
  {| match_id := match_id m; status := status m; match_type := match_type m;
     code := code m; players_A := players_A m; players_B := players_B m;
     spectators := spectators m; round := v; maxRounds := maxRounds m;
     score_A := score_A m; score_B := score_B m; turn := turn m;
     pending_kick := pending_kick m; pending_dive := pending_dive m |}.

Definition set_score (a b : Z) (m : Match) : Match :=
  {| match_id := match_id m; status := status m; match_type := match_type m;
     code := code m; players_A := players_A m; players_B := players_B m;
     spectators := spectators m; round := round m; maxRounds := maxRounds m;
     score_A := a; score_B := b; turn := turn m;
     pending_kick := pending_kick m; pending_dive := pending_dive m |}.

Definition set_turn (v : Slot) (m : Match) : Match :=
  {| match_id := match_id m; status := status m; match_type := match_type m;
     code := code m; players_A := players_A m; players_B := players_B m;
     spectators := spectators m; round := round m; maxRounds := maxRounds m;
     score_A := score_A m; score_B := score_B m; turn := v;
     pending_kick := pending_kick m; pending_dive := pending_dive m |}.

Definition set_pending (k : option Kick) (d : option Zone) (m : Match) : Match :=
  {| match_id := match_id m; status := status m; match_type := match_type m;
     code := code m; players_A := players_A m; players_B := players_B m;
     spectators := spectators m; round := round m; maxRounds := maxRounds m;
     score_A := score_A m; score_B := score_B m; turn := turn m;
     pending_kick := k; pending_dive := d |}.

(** [m.players[s]] and [m.score]. *)
Definition players (m : Match) (s : Slot) : option socketId :=
  match s with A => players_A m | B => players_B m end.

Definition score (m : Match) : Z * Z := (score_A m, score_B m).

(** [m.score[s] += 1] *)
Definition incr_score (s : Slot) (m : Match) : Match :=
  match s with
  | A => set_score (score_A m + 1) (score_B m) m
  | B => set_score (score_A m) (score_B m + 1) m
  end.

(** ** Game logic *)

Definition other (r : Slot) : Slot :=
  match r with A => B | B => A end.

(** [for (const s of m.spectators) io.to(s).emit(e)] *)
Definition to_spectators (m : Match) (e : OutEvent) : list Emit :=
  map (fun s => (Some s, e)) (spectators m).

Definition pushTurn (m : Match) : list Emit :=
  let kickerId := players m (turn m) in
  let keeperId := players m (other (turn m)) in
  [ (kickerId, your_turn kicker (round m) (turn m) (score m));
    (keeperId, your_turn keeper (round m) (other (turn m)) (score m)) ]
  ++ to_spectators m (score_update (score m) (round m) (turn m)).

Definition startIfReady (m : Match) : Match * list Emit :=
  match players_A m, players_B m, status m with
  | Some _, Some _, waiting =>
      let m := set_status playing m in
      (m,
       [ (players_A m, match_start (match_id m) A (maxRounds m));
         (players_B m, match_start (match_id m) B (maxRounds m)) ]
       ++ pushTurn m)
  | _, _, _ => (m, [])
  end.

Definition finishMatch (m : Match) : Match * list Emit :=
  let m := set_status finished m in
  let winner :=
    if score_A m >? score_B m then winner_slot A
    else if score_B m >? score_A m then winner_slot B
    else draw in
  (m,
   [ (players_A m, match_over winner (score m) None);
     (players_B m, match_over winner (score m) None) ]
   ++ to_spectators m (match_over winner (score m) None)).

(** The angle and the power that enter the arithmetic of [resolveShot]:
    [server.js] clamps the stored fields as they are, [part_000] first
    passes them through [Number(...) || 0] ([Number] is the identity on the
    numbers the [kick] handler stored). *)
Definition shot_angle (rev : Revision) (kick : Kick) : number :=
  match rev with
  | server_js => Math_max (Fin (-60)) (Math_min (Fin 60) (angleDeg kick))
  | part_000 =>
      Math_max (Fin (-60)) (Math_min (Fin 60) (or_zero (angleDeg kick)))
  end.

Definition shot_power (rev : Revision) (kick : Kick) : number :=
  match rev with
  | server_js => Math_max (Fin 0) (Math_min (Fin 1) (power01 kick))
  | part_000 => Math_max (Fin 0) (Math_min (Fin 1) (or_zero (power01 kick)))
  end.

(** The probabilistic model.  [rnd i] is the i-th value [Math.random]
    returns during this call; the result also tells how many were drawn
    (the third draw happens only when the keeper dived to the right zone
    and the ball was on target).  Sums and products are exact here, where
    the source rounds each of them to the nearest double: for a draw
    within a rounding error of one of the thresholds the source can fall
    on the other side of it. *)
Definition shot_outcome (rev : Revision) (rnd : nat -> Q)
    (kick : Kick) (dive : Zone) : ShotResult * Zone * nat :=
  let angle := shot_angle rev kick in
  let power := shot_power rev kick in
  let spread := num_mul (Fin 6) (num_add (Fin 0.2) power) in
  let actualAngle :=
    num_add angle
      (num_mul (num_sub (num_mul (Fin (rnd 0%nat)) (Fin 2)) (Fin 1)) spread) in
  let zone :=
    if num_lt actualAngle (Fin (-15)) then z_left
    else if num_gt actualAngle (Fin 15) then z_right
    else z_center in
  let missProb := num_mul (Math_max (Fin 0) (num_sub power (Fin 0.9))) (Fin 2) in
  let isMiss := num_lt (Fin (rnd 1%nat)) missProb in
  if isMiss then (miss, zone, 2%nat)
  else if decide (dive = zone) then
    let saveProb := num_sub (Fin 0.6) (num_mul (Fin 0.25) power) in
    if num_lt (Fin (rnd 2%nat)) saveProb then (save, zone, 3%nat)
    else (goal, zone, 3%nat)
  else (goal, zone, 2%nat).

(** [(m.round - 1) * 2 + (m.turn === 'A' ? 0 : 1)] *)
Definition totalShots (m : Match) : Z :=
  (round m - 1) * 2 + (if decide (turn m = A) then 0 else 1).

Definition scores_differ (m : Match) : bool :=
  negb (score_A m =? score_B m).

(** [resolveShot(m)], called only under [m.pending.kick && m.pending.dive]:
    [kick] and [dive] are the two objects it reads before clearing
    [m.pending] (so the [dive &&] guard of [part_000] always passes). *)
Definition resolveShot (rev : Revision) (rnd : nat -> Q)
    (m : Match) (kick : Kick) (dive : Zone) : Match * list Emit * nat :=
  let m := set_pending None None m in
  let '(result, zone, drawn) := shot_outcome rev rnd kick dive in
  let shooter := turn m in
  let keeper := other (turn m) in
  let m := match result with goal => incr_score shooter m | _ => m end in
  let shot := shot_result result zone (score m) (round m) keeper in
  let out := [ (players_A m, shot); (players_B m, shot) ]
             ++ to_spectators m shot in
  let m := match shooter with B => set_round (round m + 1) m | A => m end in
  let m := set_turn (other (turn m)) m in
  let max := maxRounds m in
  let maxShots := max * 2 in
  let finish := let '(m', over) := finishMatch m in (m', out ++ over, drawn) in
  let continue := (m, out ++ pushTurn m, drawn) in
  if totalShots m >=? maxShots then
    if scores_differ m then finish
    else if round m >? max then
      match turn m with
      | A => if scores_differ m then finish else continue
      | B => continue
      end
    else continue
  else continue.

(** ** Property keys of the [matches] object

    [Object.values] lists the array-index keys in ascending numeric order,
    then the other keys in creation order.  These are the own properties of
    [matches]; what a read of [matches[key]] finds beyond them is in
    [matches_at] below. *)

Definition digit_of (c : ascii) : option N :=
  let n := N_of_ascii c in
  if ((48 <=? n) && (n <=? 57))%N then Some (n - 48)%N else None.

Fixpoint digits_value (acc : N) (s : string) : option N :=
  match s with
  | EmptyString => Some acc
  | String c s' =>
      match digit_of c with
      | Some d => digits_value (acc * 10 + d)%N s'
      | None => None
      end
  end.

(** A canonical numeric string below 2^32 - 1. *)
Definition array_index (k : string) : option N :=
  match k with
  | EmptyString => None
  | String c rest =>
      if Ascii.eqb c "0" && negb (String.eqb rest "") then None
      else match digits_value 0 k with
           | Some n => if (n <? 4294967295)%N then Some n else None
           | None => None
           end
  end.

Fixpoint obj_get {V : Type} (k : string) (o : list (string * V)) : option V :=
  match o with
  | [] => None
  | (k', v) :: o' => if String.eqb k' k then Some v else obj_get k o'
  end.

Fixpoint obj_replace {V : Type} (k : string) (v : V) (o : list (string * V))
    : list (string * V) :=
  match o with
  | [] => []
  | (k', v') :: o' =>
      if String.eqb k' k then (k, v) :: o' else (k', v') :: obj_replace k v o'
  end.

Fixpoint obj_insert_index {V : Type} (n : N) (k : string) (v : V)
    (o : list (string * V)) : list (string * V) :=
  match o with
  | [] => [(k, v)]
  | (k', v') :: o' =>
      match array_index k' with
      | Some n' =>
          if (n' <? n)%N then (k', v') :: obj_insert_index n k v o'
          else (k, v) :: o
      | None => (k, v) :: o
      end
  end.

(** [o[k] = v] *)
Definition obj_set {V : Type} (k : string) (v : V) (o : list (string * V))
    : list (string * V) :=
  match obj_get k o with
  | Some _ => obj_replace k v o
  | None =>
      match array_index k with
      | Some n => obj_insert_index n k v o
      | None => o ++ [(k, v)]
      end
  end.

(** The key a [meta.matchId] denotes in [matches[meta.matchId]], and its
    truthiness. *)
Definition property_key (r : MatchRef) : string :=
  match r with
  | ref_null => "null"
  | ref_undefined => "undefined"
  | ref_key k => k
  end.

Definition ref_truthy (r : MatchRef) : bool :=
  match r with
  | ref_key k => negb (String.eqb k "")
  | _ => false
  end.

(** ** The world *)

Record World : Type := {
  objs : list Match;                   (* every match object allocated *)
  matches : list (string * nat);       (* const matches = {} *)
  queue : list socketId;               (* const queue = [] *)
  socketsMeta : gmap socketId Meta;    (* const socketsMeta = new Map() *)
  emitted : list Emit;                 (* everything emitted, oldest first *)
  n_random : nat;                      (* values drawn from Math.random *)
  n_id : nat;                          (* ids drawn *)
  n_now : nat                          (* readings of Date.now *)
}.

Definition init : World :=
  {| objs := []; matches := []; queue := []; socketsMeta := ∅;
     emitted := []; n_random := 0; n_id := 0; n_now := 0 |}.

Inductive Outcome : Type :=
| Done (w : World)
| Thrown (w : World).     (* an uncaught TypeError *)

Definition world_of (o : Outcome) : World :=
  match o with Done w | Thrown w => w end.

Definition with_objs (v : list Match) (w : World) : World :=
  {| objs := v; matches := matches w; queue := queue w;
     socketsMeta := socketsMeta w; emitted := emitted w;
     n_random := n_random w; n_id := n_id w; n_now := n_now w |}.

Definition with_matches (v : list (string * nat)) (w : World) : World :=
  {| objs := objs w; matches := v; queue := queue w;
     socketsMeta := socketsMeta w; emitted := emitted w;
     n_random := n_random w; n_id := n_id w; n_now := n_now w |}.

Definition with_queue (v : list socketId) (w : World) : World :=
  {| objs := objs w; matches := matches w; queue := v;
     socketsMeta := socketsMeta w; emitted := emitted w;
     n_random := n_random w; n_id := n_id w; n_now := n_now w |}.

Definition with_socketsMeta (v : gmap socketId Meta) (w : World) : World :=
  {| objs := objs w; matches := matches w; queue := queue w;
     socketsMeta := v; emitted := emitted w;
     n_random := n_random w; n_id := n_id w; n_now := n_now w |}.

Definition emit (es : list Emit) (w : World) : World :=
  {| objs := objs w; matches := matches w; queue := queue w;
     socketsMeta := socketsMeta w; emitted := emitted w ++ es;
     n_random := n_random w; n_id := n_id w; n_now := n_now w |}.

Definition drawn_random (k : nat) (w : World) : World :=
  {| objs := objs w; matches := matches w; queue := queue w;
     socketsMeta := socketsMeta w; emitted := emitted w;
     n_random := (n_random w + k)%nat; n_id := n_id w; n_now := n_now w |}.

Definition drawn_id (w : World) : World :=
  {| objs := objs w; matches := matches w; queue := queue w;
     socketsMeta := socketsMeta w; emitted := emitted w;
     n_random := n_random w; n_id := S (n_id w); n_now := n_now w |}.

Definition drawn_now (w : World) : World :=
  {| objs := objs w; matches := matches w; queue := queue w;
     socketsMeta := socketsMeta w; emitted := emitted w;
     n_random := n_random w; n_id := n_id w; n_now := S (n_now w) |}.

(** The match stored under [key], an own property of [matches]: its address
    and the object. *)
Definition get_match (w : World) (key : string) : option (nat * Match) :=
  match obj_get key (matches w) with
  | Some a => match objs w !! a with Some m => Some (a, m) | None => None end
  | None => None
  end.

(** [matches] is created by [{}], so a read also finds the members of
    [Object.prototype]: eleven functions and, under [__proto__], the
    prototype itself.  None of them has a property [status], [spectators]
    or [players].  An id is never one of these names: [uid()] returns at
    most ten characters among [0-9a-z] and [genId()] eight hexadecimal
    digits. *)
Definition prototype_members : list string :=
  [ "constructor"; "__defineGetter__"; "__defineSetter__"; "hasOwnProperty";
    "__lookupGetter__"; "__lookupSetter__"; "isPrototypeOf";
    "propertyIsEnumerable"; "toString"; "valueOf"; "__proto__";
    "toLocaleString" ].

Definition inherited (key : string) : bool :=
  existsb (String.eqb key) prototype_members.

(** What [matches[key]] evaluates to. *)
Inductive Property : Type :=
| own_match (a : nat) (m : Match)     (* the match stored under the key *)
| prototype_member                    (* truthy, and not a match *)
| no_property.                        (* undefined *)

Definition matches_at (w : World) (key : string) : Property :=
  match get_match w key with
  | Some (a, m) => own_match a m
  | None => if inherited key then prototype_member else no_property
  end.

(** A handler mutates the object it holds in place. *)
Definition store_match (a : nat) (m : Match) (w : World) : World :=
  with_objs (<[a := m]> (objs w)) w.

(** The object a handler gets from [socketsMeta.get(s) || {}]. *)
Definition empty_meta : Meta :=
  {| uid := VUndefined; nick := VUndefined; matchId := ref_undefined;
     role := None |}.

Definition meta_or_empty (w : World) (s : socketId) : Meta :=
  default empty_meta (socketsMeta w !! s).

(** [meta.matchId = key; meta.role = r] *)
Definition assign_match (key : string) (r : Role) (meta : Meta) : Meta :=
  {| uid := uid meta; nick := nick meta; matchId := ref_key key;
     role := Some r |}.

(** [meta.uid = u; meta.nick = n] *)
Definition assign_identity (u n : jsval) (meta : Meta) : Meta :=
  {| uid := u; nick := n; matchId := matchId meta; role := role meta |}.

Definition set_meta (s : socketId) (meta : Meta) (w : World) : World :=
  with_socketsMeta (<[s := meta]> (socketsMeta w)) w.

(** ** Ids and invite codes *)

Definition chars : list ascii :=
  String.list_ascii_of_string "ABCDEFGHJKLMNPQRSTUVWXYZ23456789".

(** [chars[Math.floor(r * chars.length)]], appended to [out]. *)
Definition append_char (out : string) (r : Q) : string :=
  match Qfloor (r * inject_Z (Z.of_nat (length chars))) with
  | Zneg _ => String.append out "undefined"
  | i => match chars !! Z.to_nat i with
         | Some c => String.append out (String c EmptyString)
         | None => String.append out "undefined"
         end
  end.

(** [inviteCode()], reading [Math.random] from position [n] on. *)
Definition inviteCode (h : Host) (n : nat) : string :=
  foldl (fun out i => append_char out (Math_random h (n + i)))
    EmptyString (seq 0 6).

(** [createMatch(type)]: the address of the new object, the object and the
    world. *)
Definition createMatch (h : Host) (type : MatchType) (w : World)
    : nat * Match * World :=
  let id := fresh_id h (n_id w) in
  let w := drawn_id w in
  let '(c, w) :=
    match type with
    | private => (Some (inviteCode h (n_random w)), drawn_random 6 w)
    | public => (None, w)
    end in
  let m := {| match_id := id; status := waiting; match_type := type;
              code := c; players_A := None; players_B := None;
              spectators := []; round := 1; maxRounds := 5;
              score_A := 0; score_B := 0; turn := A;
              pending_kick := None; pending_dive := None |} in
  let a := length (objs w) in
  (a, m, with_matches (obj_set id a (matches w)) (with_objs (objs w ++ [m]) w)).

(** ** Socket handlers

    Each handler takes the id of the socket it was registered for.  A
    payload is [None] when the client sent [undefined] or [null], which
    the destructuring parameters of the source cannot take apart. *)

Definition connection (s : socketId) (w : World) : Outcome :=
  Done (set_meta s {| uid := VNull; nick := VNull; matchId := ref_null;
                      role := None |} w).

Definition Invitado : jsval := VString "Invitado".

(** [hello]: the payload is [{ uid, nick }]. *)
Definition hello (rev : Revision) (h : Host) (s : socketId)
    (payload : option (jsval * jsval)) (w : World) : Outcome :=
  match rev with
  | server_js =>
      match payload with
      | None => Thrown w
      | Some (uid, nick) =>
          let meta := meta_or_empty w s in
          (* uid || ('guest_' + uid()): the parameter shadows the function *)
          if truthy uid then
            let meta :=
              assign_identity uid (if truthy nick then nick else Invitado)
                meta in
            let w := set_meta s meta w in
            Done (emit [(Some s, hello_ok (Date_now h (n_now w)) None None)]
                    (drawn_now w))
          else Thrown w
      end
  | part_000 =>
      let '(uid, nick) := default (VUndefined, VUndefined) payload in
      let rawUid := match uid with VString u => u | _ => EmptyString end in
      let nick :=
        match nick with
        | VString n =>
            if negb (String.eqb (String_trim h n) "") then String_trim h n
            else "Invitado"
        | _ => "Invitado"
        end in
      let '(finalUid, w) :=
        if negb (String.eqb rawUid "") then (rawUid, w)
        else (String.append "guest_" (fresh_id h (n_id w)), drawn_id w) in
      let meta :=
        assign_identity (VString finalUid) (VString nick) (meta_or_empty w s) in
      let w := set_meta s meta w in
      Done (emit [(Some s, hello_ok (Date_now h (n_now w))
                              (Some (VString finalUid)) (Some (VString nick)))]
              (drawn_now w))
  end.

(** One turn of the [while (queue.length >= 2)] loop, after the two
    [queue.shift()]. *)
Definition pair_players (rev : Revision) (h : Host) (sA sB : socketId)
    (w : World) : Outcome :=
  let '(a, m, w) := createMatch h public w in
  let m := set_players_B (Some sB) (set_players_A (Some sA) m) in
  let w := store_match a m w in
  match rev with
  | server_js =>
      match socketsMeta w !! sA with
      | None => Thrown w
      | Some metaA =>
          let w := set_meta sA (assign_match (match_id m) role_A metaA) w in
          match socketsMeta w !! sB with
          | None => Thrown w
          | Some metaB =>
              let w := set_meta sB (assign_match (match_id m) role_B metaB) w in
              let '(m, out) := startIfReady m in
              Done (emit out (store_match a m w))
          end
      end
  | part_000 =>
      let metaA := meta_or_empty w sA in
      let metaB := meta_or_empty w sB in
      let w := set_meta sA (assign_match (match_id m) role_A metaA) w in
      let w := set_meta sB (assign_match (match_id m) role_B metaB) w in
      let '(m, out) := startIfReady m in
      Done (emit out (store_match a m w))
  end.

(** The loop itself; [q] is the queue of [w]. *)
Fixpoint pairing (rev : Revision) (h : Host) (q : list socketId) (w : World)
    : Outcome :=
  match q with
  | sA :: sB :: rest =>
      match pair_players rev h sA sB (with_queue rest w) with
      | Done w' => pairing rev h rest w'
      | Thrown w' => Thrown w'
      end
  | _ => Done w
  end.

Definition join_queue (rev : Revision) (h : Host) (s : socketId) (w : World)
    : Outcome :=
  match socketsMeta w !! s with
  | None => Done w
  | Some _ =>
      let w := with_queue (queue w ++ [s]) w in
      pairing rev h (queue w) w
  end.

Definition create_private (h : Host) (s : socketId) (w : World) : Outcome :=
  let '(a, m, w) := createMatch h private w in
  let m := set_players_A (Some s) m in
  let w := store_match a m w in
  let w := set_meta s (assign_match (match_id m) role_A (meta_or_empty w s)) w in
  Done (emit [(Some s, private_created (match_id m) (code m))] w).

(** [x.code === code] *)
Definition code_is (c : option string) (v : jsval) : bool :=
  match c, v with
  | None, VNull => true
  | Some c, VString c' => String.eqb c c'
  | _, _ => false
  end.

(** [Object.values(matches).find(p)] *)
Fixpoint find_match (p : Match -> bool) (os : list Match)
    (ms : list (string * nat)) : option (nat * Match) :=
  match ms with
  | [] => None
  | (_, a) :: ms' =>
      match os !! a with
      | Some x => if p x then Some (a, x) else find_match p os ms'
      | None => find_match p os ms'
      end
  end.

Definition waiting_with_code (v : jsval) (x : Match) : bool :=
  code_is (code x) v && bool_decide (status x = waiting).

(** [join_by_code]: the payload is [{ code }]. *)
Definition join_by_code (s : socketId) (payload : option jsval) (w : World)
    : Outcome :=
  match payload with
  | None => Thrown w
  | Some code =>
      match find_match (waiting_with_code code) (objs w) (matches w) with
      | None =>
          Done (emit [(Some s, error_msg "Código inválido o sala no disponible")] w)
      | Some (a, m) =>
          match players_B m with
          | Some _ => Done (emit [(Some s, error_msg "La sala ya está llena")] w)
          | None =>
              let m := set_players_B (Some s) m in
              let w := store_match a m w in
              let w := set_meta s (assign_match (match_id m) role_B
                                     (meta_or_empty w s)) w in
              let '(m, out) := startIfReady m in
              Done (emit out (store_match a m w))
          end
      end
  end.

(** [m.spectators.add(s)] *)
Definition set_add (s : socketId) (l : list socketId) : list socketId :=
  if bool_decide (s ∈ l) then l else l ++ [s].

(** [spectate_join]: the payload is [{ matchId }], a key of [matches].  A
    member of [Object.prototype] passes [!m || m.status === 'finished'] and
    has no [spectators] to [add] to. *)
Definition spectate_join (s : socketId) (payload : option string) (w : World)
    : Outcome :=
  match payload with
  | None => Thrown w
  | Some matchId =>
      match matches_at w matchId with
      | own_match a m =>
          if bool_decide (status m = finished) then
            Done (emit [(Some s, error_msg "Partido no disponible")] w)
          else
            let m := set_spectators (set_add s (spectators m)) m in
            let w := store_match a m w in
            let w := set_meta s (assign_match matchId role_spec
                                   (meta_or_empty w s)) w in
            Done (emit [(Some s, score_update (score m) (round m) (turn m))] w)
      | prototype_member => Thrown w
      | no_property => Done (emit [(Some s, error_msg "Partido no disponible")] w)
      end
  end.

(** What the [kick] handler stores in [m.pending.kick]. *)
Definition stored_kick (h : Host) (angleDeg power01 : jsval) : Kick :=
  {| angleDeg := or_zero (Number h angleDeg);
     power01 := Math_max (Fin 0) (Math_min (Fin 1) (Number h power01)) |}.

(** [['left', 'center', 'right'].includes(dir) ? dir : 'center'] *)
Definition normalized (dir : jsval) : Zone :=
  match dir with
  | VString d =>
      if String.eqb d "left" then z_left
      else if String.eqb d "center" then z_center
      else if String.eqb d "right" then z_right
      else z_center
  | _ => z_center
  end.

(** [if (m.pending.kick && m.pending.dive) resolveShot(m)], then the object
    is written back at its address. *)
Definition resolve_if_ready (rev : Revision) (h : Host) (a : nat) (m : Match)
    (w : World) : World :=
  match pending_kick m, pending_dive m with
  | Some k, Some d =>
      let '(m, out, n) :=
        resolveShot rev (fun i => Math_random h (n_random w + i)) m k d in
      emit out (drawn_random n (store_match a m w))
  | _, _ => store_match a m w
  end.

(** [kick]: the payload is [{ angleDeg, power01 }].  A member of
    [Object.prototype] has no [status], which is then not ['playing']. *)
Definition kick (rev : Revision) (h : Host) (s : socketId)
    (payload : option (jsval * jsval)) (w : World) : Outcome :=
  match payload with
  | None => Thrown w
  | Some (angleDeg, power01) =>
      match socketsMeta w !! s with
      | None => Done w
      | Some meta =>
          match matches_at w (property_key (matchId meta)) with
          | no_property | prototype_member => Done w
          | own_match a m =>
              if negb (bool_decide (status m = playing)) then Done w
              else if negb (bool_decide (players m (turn m) = Some s)) then Done w
              else
                let m := set_pending (Some (stored_kick h angleDeg power01))
                           (pending_dive m) m in
                Done (resolve_if_ready rev h a m w)
          end
      end
  end.

(** [dive]: the payload is [{ dir }]. *)
Definition dive (rev : Revision) (h : Host) (s : socketId)
    (payload : option jsval) (w : World) : Outcome :=
  match payload with
  | None => Thrown w
  | Some dir =>
      match socketsMeta w !! s with
      | None => Done w
      | Some meta =>
          match matches_at w (property_key (matchId meta)) with
          | no_property | prototype_member => Done w
          | own_match a m =>
              if negb (bool_decide (status m = playing)) then Done w
              else
                let keeperId := players m (other (turn m)) in
                if negb (bool_decide (keeperId = Some s)) then Done w
                else
                  let m := set_pending (pending_kick m) (Some (normalized dir)) m in
                  Done (resolve_if_ready rev h a m w)
          end
      end
  end.

(** [idx = queue.indexOf(s); if (idx >= 0) queue.splice(idx, 1)] *)
Fixpoint remove_first (s : socketId) (q : list socketId) : list socketId :=
  match q with
  | [] => []
  | x :: q' => if bool_decide (x = s) then q' else x :: remove_first s q'
  end.

Definition opponent_disconnected : option string := Some "opponent_disconnected".

(** [disconnect].  Were [meta.matchId] the name of a member of
    [Object.prototype], [m.status = 'finished'] would be written on that
    member and [m.players.A] would fail, [m.players] being undefined. *)
Definition disconnect (s : socketId) (w : World) : Outcome :=
  let meta := socketsMeta w !! s in
  let w := with_socketsMeta (delete s (socketsMeta w)) w in
  let w := with_queue (remove_first s (queue w)) w in
  match meta with
  | None => Done w
  | Some meta =>
      if ref_truthy (matchId meta) then
        match matches_at w (property_key (matchId meta)) with
        | no_property => Done w
        | prototype_member => Thrown w
        | own_match a m =>
            if bool_decide (status m = finished) then Done w
            else
              let m := set_status finished m in
              let winner :=
                winner_slot (if bool_decide (players_A m = Some s) then B else A) in
              let over := match_over winner (score m) opponent_disconnected in
              Done (emit ([ (players_A m, over); (players_B m, over) ]
                          ++ to_spectators m over)
                      (store_match a m w))
        end
      else Done w
  end.

(** ** Inbound events and runs *)

Inductive InEvent : Type :=
| on_connection
| on_hello (payload : option (jsval * jsval))
| on_join_queue
| on_create_private
| on_join_by_code (payload : option jsval)
| on_spectate_join (payload : option string)
| on_kick (payload : option (jsval * jsval))
| on_dive (payload : option jsval)
| on_disconnect.

Definition step (rev : Revision) (h : Host) (ev : socketId * InEvent)
    (w : World) : Outcome :=
  let '(s, e) := ev in
  match e with
  | on_connection => connection s w
  | on_hello payload => hello rev h s payload w
  | on_join_queue => join_queue rev h s w
  | on_create_private => create_private h s w
  | on_join_by_code payload => join_by_code s payload w
  | on_spectate_join payload => spectate_join s payload w
  | on_kick payload => kick rev h s payload w
  | on_dive payload => dive rev h s payload w
  | on_disconnect => disconnect s w
  end.

(** Events are handled one at a time, each to completion; an uncaught
    exception ends the run. *)
Fixpoint run (rev : Revision) (h : Host) (evs : list (socketId * InEvent))
    (w : World) : Outcome :=
  match evs with
  | [] => Done w
  | ev :: evs' =>
      match step rev h ev w with
      | Done w' => run rev h evs' w'
      | Thrown w' => Thrown w'
      end
  end.

(** The worlds the server can be in between two events. *)
Inductive reachable (rev : Revision) (h : Host) : World -> Prop :=
| reachable_init : reachable rev h init
| reachable_step w ev w' :
    reachable rev h w -> step rev h ev w = Done w' -> reachable rev h w'.

(** ** Vocabulary of the properties *)

(** The order waiting < playing < finished. *)
Definition status_rank (s : Status) : nat :=
  match s with waiting => 0 | playing => 1 | finished => 2 end.

Definition status_le (s s' : Status) : Prop :=
  (status_rank s <= status_rank s')%nat.

(** What a handler may do to a match object it did not create: the fields
    fixed at creation stay, the status does not go back. *)
Definition evolves (m m' : Match) : Prop :=
  match_id m' = match_id m /\ match_type m' = match_type m /\
  code m' = code m /\ maxRounds m' = maxRounds m /\
  players_A m' = players_A m /\ status_le (status m) (status m').

(** A match object as a handler leaves it after creating it. *)
Definition born (h : Host) (m : Match) : Prop :=
  match match_type m with
  | public => code m = None
  | private => exists n, code m = Some (inviteCode h n)
  end /\ is_Some (players_A m) /\ maxRounds m = 5.

(** The heap [os'] comes from [os]: old objects evolve, new ones are born. *)
Definition heap_extends (h : Host) (os os' : list Match) : Prop :=
  (forall a m, os !! a = Some m -> exists m', os' !! a = Some m' /\ evolves m m') /\
  (forall a m', os' !! a = Some m' -> os !! a = None -> born h m').

(** An invite code: six characters of [chars], none of them I, O, 0 or 1. *)
Definition confusable (c : ascii) : bool :=
  Ascii.eqb c "I" || Ascii.eqb c "O" || Ascii.eqb c "0" || Ascii.eqb c "1".

Definition valid_code (c : string) : Prop :=
  String.length c = 6%nat /\
  Forall (fun x => x ∈ chars /\ confusable x = false)
    (String.list_ascii_of_string c).

(** The match at address [a] is in the store, private and waiting. *)
Definition waiting_private (w : World) (a : nat) (m : Match) : Prop :=
  (exists k, (k, a) ∈ matches w) /\ objs w !! a = Some m /\
  match_type m = private /\ status m = waiting.

Definition codes_unique (w : World) : Prop :=
  forall a1 a2 m1 m2,
    waiting_private w a1 m1 -> waiting_private w a2 m2 -> a1 <> a2 ->
    code m1 <> code m2.

(** A shot as the two handlers hand it to [resolveShot]. *)
Record ShotInput : Type := {
  shot_kick : Kick;
  shot_dive : Zone;
  shot_rnd : nat -> Q
}.

(** Shots are resolved only while the match is [playing] (the guard of the
    [kick] and [dive] handlers); the emitted events accumulate. *)
Definition play_shot (rev : Revision) (st : Match * list Emit)
    (i : ShotInput) : Match * list Emit :=
  let '(m, out) := st in
  match status m with
  | playing =>
      let '(m', out', _) :=
        resolveShot rev (shot_rnd i) m (shot_kick i) (shot_dive i) in
      (m', out ++ out')
  | _ => (m, out)
  end.

Definition play_shots (rev : Revision) (m : Match) (shots : list ShotInput)
    : Match * list Emit :=
  foldl (play_shot rev) (m, []) shots.

(** ** A host and some traffic for the examples *)

(** [Math.random] cycles through six values; text converts to a number only
    when it is a string of decimal digits, and [trim] has nothing to remove
    (the examples send no other text to these two). *)
Definition demo_host : Host :=
  {| Math_random := fun n =>
       nth (n mod 6) [0.31; 0.07; 0.95; 0.5; 0.66; 0.12]%Q 0%Q;
     fresh_id := fun n =>
       nth n ["3f9a1c07"; "b41e88d2"; "07c2d9aa"; "e6510b3c"] "5d0f7e19";
     Date_now := fun n => 1700000000000 + Z.of_nat n;
     StringToNumber := fun s =>
       match digits_value 0 s with
       | Some n => Fin (inject_Z (Z.of_N n))
       | None => NaN
       end;
     String_trim := fun s => s |}.

(** Sockets 1 and 2 are paired by the queue: 1 plays A, 2 plays B. *)
Definition paired : list (socketId * InEvent) :=
  [ (1%nat, on_connection); (2%nat, on_connection);
    (1%nat, on_join_queue); (2%nat, on_join_queue) ].

(** The kicker shoots straight at half power, the keeper dives [dir]. *)
Definition shot_by (s : Slot) (dir : string) : list (socketId * InEvent) :=
  let kicker := match s with A => 1%nat | B => 2%nat end in
  let keeper := match s with A => 2%nat | B => 1%nat end in
  [ (kicker, on_kick (Some (VNumber (Fin 0), VNumber (Fin 0.5))));
    (keeper, on_dive (Some (VString dir))) ].

(** Five rounds in which every keeper dives left and every shot goes in. *)
Definition regulation : list (socketId * InEvent) :=
  concat (replicate 5 (shot_by A "left" ++ shot_by B "left")).

(** Socket 1 opens a private match, socket 2 joins it with the code, socket
    3 watches. *)
Definition watched : list (socketId * InEvent) :=
  [ (1%nat, on_connection); (2%nat, on_connection); (3%nat, on_connection);
    (1%nat, on_create_private);
    (2%nat, on_join_by_code (Some (VString "KC8SXD")));
    (3%nat, on_spectate_join (Some "3f9a1c07")) ].

(** Sockets 1 and 2 each open a private match. *)
Definition two_private : list (socketId * InEvent) :=
  [ (1%nat, on_connection); (2%nat, on_connection);
    (1%nat, on_create_private); (2%nat, on_create_private) ].

(** ** Worlds and inputs of the examples *)

Definition is_done (o : Outcome) : bool :=
  match o with Done _ => true | Thrown _ => false end.

(** The worlds these runs end in. *)
Definition two_private_world : World :=
  world_of (run server_js demo_host two_private init).

(** The n-th of the two private matches, as [two_private] leaves it. *)
Definition two_private_match (n : nat) : Match :=
  {| match_id := fresh_id demo_host n; status := waiting;
     match_type := private; code := Some "KC8SXD";
     players_A := Some (S n); players_B := None;
     spectators := []; round := 1; maxRounds := 5;
     score_A := 0; score_B := 0; turn := A;
     pending_kick := None; pending_dive := None |}.

(** A public match right after [startIfReady], and ten shots in which A
    always scores (the keeper dives left) and B is always saved (the keeper
    stays in the centre and the third draw is below the save probability). *)
Definition started_match : Match :=
  {| match_id := "3f9a1c07"; status := playing; match_type := public;
     code := None; players_A := Some 1%nat; players_B := Some 2%nat;
     spectators := [3%nat]; round := 1; maxRounds := 5;
     score_A := 0; score_B := 0; turn := A;
     pending_kick := None; pending_dive := None |}.

Definition straight_shot (dir : Zone) : ShotInput :=
  {| shot_kick := {| angleDeg := Fin 0; power01 := Fin 0.5 |};
     shot_dive := dir;
     shot_rnd := fun _ => 0.25%Q |}.

Definition ten_shots : list ShotInput :=
  concat (replicate 5 [straight_shot z_left; straight_shot z_center]).

(** Four sockets connected, nobody queued. *)
Definition four_connected : World :=
  world_of (run server_js demo_host
              [ (1%nat, on_connection); (2%nat, on_connection);
                (3%nat, on_connection); (4%nat, on_connection) ] init).

(** The private match of [watched] once socket 2 has joined and socket 3
    watches. *)
Definition watched_match : Match :=
  {| match_id := "3f9a1c07"; status := playing; match_type := private;
     code := Some "KC8SXD"; players_A := Some 1%nat; players_B := Some 2%nat;
     spectators := [3%nat]; round := 1; maxRounds := 5;
     score_A := 0; score_B := 0; turn := A;
     pending_kick := None; pending_dive := None |}.

(** The meta of a spectator of that match. *)
Definition watcher_meta : Meta :=
  {| uid := VNull; nick := VNull; matchId := ref_key "3f9a1c07";
     role := Some role_spec |}.

(** The public match of [paired] after [regulation]: five all. *)
Definition tied_match : Match :=
  {| match_id := "3f9a1c07"; status := playing; match_type := public;
     code := None; players_A := Some 1%nat; players_B := Some 2%nat;
     spectators := []; round := 6; maxRounds := 5;
     score_A := 5; score_B := 5; turn := A;
     pending_kick := None; pending_dive := None |}.

(** A kick whose payload has no [power01]. *)
Definition kick_without_power : socketId * InEvent :=
  (1%nat, on_kick (Some (VNumber (Fin 10), VUndefined))).

(** A match of five rounds that is not finished before its tenth shot. *)
Definition late_finish (m : Match) : Prop :=
  maxRounds m = 5 /\ (status m = finished -> 10 <= totalShots m).

(** ** The listing of public matches *)

(** One entry of [GET /matches]. *)
Record Listing : Type := {
  listed_id : string;
  listed_status : Status;
  listed_round : Z;
  listed_maxRounds : Z;
  listed_score : Z * Z;
  listed_spectators : nat         (* m.spectators.size *)
}.

(** [Object.values(matches)] *)
Definition values (w : World) : list Match :=
  omap (fun ka : string * nat => objs w !! ka.2) (matches w).

(** [m.type === 'public' && m.status !== 'finished'] *)
Definition listable (m : Match) : bool :=
  bool_decide (match_type m = public) && negb (bool_decide (status m = finished)).

Definition listing (m : Match) : Listing :=
  {| listed_id := match_id m; listed_status := status m;
     listed_round := round m; listed_maxRounds := maxRounds m;
     listed_score := score m; listed_spectators := length (spectators m) |}.

Definition publicMatchesSnapshot (w : World) : list Listing :=
  map listing (List.filter listable (values w)).

(** ** Invariants of the reachable worlds *)

(** Shots taken so far by each side. *)
Definition shots_by (s : Slot) (m : Match) : Z :=
  match s, turn m with
  | A, A => round m - 1
  | A, B => round m
  | B, _ => round m - 1
  end.

Definition sound_match (m : Match) : Prop :=
  1 <= round m /\
  (0 <= score_A m <= shots_by A m) /\ (0 <= score_B m <= shots_by B m) /\
  is_Some (players_A m) /\
  (status m = playing -> is_Some (players_B m)) /\
  (status m = waiting ->
     match_type m = private /\ players_B m = None /\
     pending_kick m = None /\ pending_dive m = None /\
     round m = 1 /\ turn m = A /\ score m = (0, 0)) /\
  (pending_kick m = None \/ pending_dive m = None).

(** At most one socket waits in the queue, and it is registered. *)
Definition queue_ok (w : World) : Prop :=
  (length (queue w) <= 1)%nat /\
  forall s, s ∈ queue w -> is_Some (socketsMeta w !! s).

Definition world_ok (w : World) : Prop :=
  Forall sound_match (objs w) /\ queue_ok w.

(** What the events that are neither [kick] nor [dive] leave alone. *)
Definition same_play (m m' : Match) : Prop :=
  score m' = score m /\ round m' = round m /\ turn m' = turn m /\
  pending_kick m' = pending_kick m /\ pending_dive m' = pending_dive m.

Definition is_shot_event (e : InEvent) : bool :=
  match e with on_kick _ | on_dive _ => true | _ => false end.


(** [match_over] with a winner that is a slot. *)
Definition names_a_winner (e : Emit) : Prop :=
  match e.2 with
  | match_over draw _ _ => False
  | _ => True
  end.

(** The world in which sockets 1 and 2 play the private match that socket 3
    watches, and the one in which five rounds have been played, five all. *)
Definition watched_world : World :=
  world_of (run server_js demo_host watched init).

Definition tied_world : World :=
  world_of (run server_js demo_host (paired ++ regulation) init).

(** Every object of the heap [os] is still in [os'], related by [R]. *)
Definition heap_rel (R : Match -> Match -> Prop) (os os' : list Match) : Prop :=
  forall a m, os !! a = Some m -> exists m', os' !! a = Some m' /\ R m m'.

(** A finished match stays as it is. *)
Definition frozen (m m' : Match) : Prop := status m = finished -> m' = m.

(** The world of [watched] after the spectator has left. *)
Definition ended_world : World :=
  world_of (run server_js demo_host (watched ++ [(3%nat, on_disconnect)]) init).

(** Events sent after the end of that match. *)
Definition late_events : list (socketId * InEvent) :=
  shot_by A "left"
  ++ [ (4%nat, on_connection);
       (4%nat, on_spectate_join (Some "3f9a1c07"));
       (4%nat, on_join_by_code (Some (VString "KC8SXD")));
       (1%nat, on_disconnect) ].

(** Events that are neither [kick] nor [dive]. *)
Definition quiet_events : list (socketId * InEvent) :=
  [ (4%nat, on_connection);
    (4%nat, on_hello (Some (VString "u-4", VString "Ana")));
    (4%nat, on_spectate_join (Some "3f9a1c07")); (4%nat, on_join_queue);
    (3%nat, on_create_private); (4%nat, on_disconnect) ].

(** The events that announce a turn. *)
Definition announces_turn (e : Emit) : Prop :=
  match e.2 with
  | your_turn _ _ _ _ | score_update _ _ _ => True
  | _ => False
  end.

(** Sudden death, A has shot and not scored, B to close the pair. *)
Definition closing_match : Match := set_turn B tied_match.

(** The socket [s] holds the given role in a playing match: its meta points
    at the match and the match has it as kicker (the slot of [turn]) or as
    keeper (the other slot). *)
Definition acts_as (w : World) (s : socketId) (r : TurnRole)
    (a : nat) (m : Match) : Prop :=
  exists meta,
    socketsMeta w !! s = Some meta /\
    get_match w (property_key (matchId meta)) = Some (a, m) /\
    status m = playing /\
    players m (match r with kicker => turn m | keeper => other (turn m) end)
      = Some s.

(** Scores and rounds that have not gone down. *)
Definition not_lower (m m' : Match) : Prop :=
  score_A m <= score_A m' /\ score_B m <= score_B m' /\ round m <= round m'.

(** Every entry of [matches] holds a match object under the id of that
    object, and a meta points at no key that [matches] does not have. *)
Definition store_ok (w : World) : Prop :=
  (forall k a, (k, a) ∈ matches w ->
     exists m, objs w !! a = Some m /\ match_id m = k) /\
  (forall s meta k, socketsMeta w !! s = Some meta ->
     matchId meta = ref_key k -> is_Some (obj_get k (matches w))).



(** The two refusals of [join_by_code]. *)
Definition invalid_code : OutEvent :=
  error_msg "Código inválido o sala no disponible".

(** A handler that only reported [e] to the caller [s]. *)
Definition only_reports (s : socketId) (e : OutEvent) (w w' : World) : Prop :=
  objs w' = objs w /\ matches w' = matches w /\ queue w' = queue w /\
  socketsMeta w' = socketsMeta w /\ emitted w' = emitted w ++ [(Some s, e)].

(** * Properties *)

(** ** The heap discipline of the handlers *)

Lemma status_le_refl s : status_le s s.
Proof. unfold status_le. lia. Qed.

Lemma status_le_trans s1 s2 s3 :
  status_le s1 s2 -> status_le s2 s3 -> status_le s1 s3.
Proof. unfold status_le. lia. Qed.

Lemma status_le_finished s : status_le s finished.
Proof. destruct s; unfold status_le; simpl; lia. Qed.

Lemma evolves_refl m : evolves m m.
Proof. unfold evolves. repeat split; auto using status_le_refl. Qed.

Lemma evolves_trans m1 m2 m3 : evolves m1 m2 -> evolves m2 m3 -> evolves m1 m3.
Proof.
  unfold evolves.
  intros (E1 & E2 & E3 & E4 & E5 & L1) (F1 & F2 & F3 & F4 & F5 & L2).
  repeat split; try congruence. eapply status_le_trans; eauto.
Qed.

Lemma born_evolves h m m' : born h m -> evolves m m' -> born h m'.
Proof.
  unfold born, evolves.
  intros (Hc & HA & Hr) (E1 & E2 & E3 & E4 & E5 & _).
  rewrite E2, E3, E4, E5. auto.
Qed.

Lemma heap_extends_refl h os : heap_extends h os os.
Proof.
  split.
  - intros a m Hm. exists m. auto using evolves_refl.
  - intros a m' Hm' Hn. congruence.
Qed.

Lemma heap_extends_trans h os1 os2 os3 :
  heap_extends h os1 os2 -> heap_extends h os2 os3 -> heap_extends h os1 os3.
Proof.
  intros [H1 B1] [H2 B2]. split.
  - intros a m Hm.
    destruct (H1 a m Hm) as (m2 & Hm2 & E12).
    destruct (H2 a m2 Hm2) as (m3 & Hm3 & E23).
    exists m3. split; [assumption | eapply evolves_trans; eauto].
  - intros a m3 Hm3 Hn.
    destruct (os2 !! a) as [m2|] eqn:Hm2.
    + destruct (H2 a m2 Hm2) as (m3' & Hm3' & E23).
      assert (m3' = m3) by congruence. subst m3'.
      eapply born_evolves; eauto.
    + eauto.
Qed.

Lemma heap_extends_insert h os a m m' :
  os !! a = Some m -> evolves m m' -> heap_extends h os (<[a := m']> os).
Proof.
  intros Hm E. split.
  - intros b x Hx. destruct (decide (a = b)) as [->|Hne].
    + exists m'. split.
      * apply list_lookup_insert_eq. eapply lookup_lt_Some; eauto.
      * congruence.
    + exists x. rewrite list_lookup_insert_ne by assumption.
      auto using evolves_refl.
  - intros b x Hx Hn. destruct (decide (a = b)) as [->|Hne]; [congruence|].
    rewrite list_lookup_insert_ne in Hx by assumption. congruence.
Qed.

Lemma heap_extends_alloc h os m : born h m -> heap_extends h os (os ++ [m]).
Proof.
  intros Hb. split.
  - intros a x Hx. exists x. split; [|apply evolves_refl].
    rewrite lookup_app_l; [assumption | eapply lookup_lt_Some; eauto].
  - intros a x Hx Hn.
    apply lookup_ge_None in Hn.
    rewrite lookup_app_r in Hx by assumption.
    destruct (a - length os)%nat; simpl in Hx; [congruence | discriminate].
Qed.

Lemma insert_last (os : list Match) (m m' : Match) :
  <[length os := m']> (os ++ [m]) = os ++ [m'].
Proof.
  rewrite insert_app_r_alt by lia.
  replace (length os - length os)%nat with 0%nat by lia. reflexivity.
Qed.

Lemma get_match_lookup w key a m :
  get_match w key = Some (a, m) -> objs w !! a = Some m.
Proof.
  unfold get_match. destruct (obj_get key (matches w)); [|discriminate].
  destruct (objs w !! n) eqn:E; [|discriminate]. congruence.
Qed.

Lemma find_match_lookup p os ms a m :
  find_match p os ms = Some (a, m) -> os !! a = Some m /\ p m = true.
Proof.
  induction ms as [|[k b] ms IH]; simpl; [discriminate|].
  destruct (os !! b) eqn:E; [|assumption].
  destruct (p m0) eqn:Hp; [|assumption].
  intros [= -> ->]. auto.
Qed.

Lemma startIfReady_evolves m : evolves m (startIfReady m).1.
Proof.
  unfold startIfReady.
  destruct (players_A m), (players_B m), (status m) eqn:Hs;
    simpl; try apply evolves_refl.
  unfold evolves; simpl. repeat split; auto.
  rewrite Hs. unfold status_le; simpl; lia.
Qed.

Lemma resolveShot_evolves rev rnd m k d :
  evolves m (resolveShot rev rnd m k d).1.1.
Proof.
  unfold resolveShot.
  destruct (shot_outcome rev rnd k d) as [[res zone] n].
  match goal with |- context [if ?c then _ else _] => destruct c end.
  all: repeat match goal with |- context [if ?c then _ else _] => destruct c end.
  all: destruct res, (turn m); simpl.
  all: unfold evolves; simpl; repeat split;
       auto using status_le_finished, status_le_refl.
Qed.

Lemma pair_players_extends rev h sA sB w :
  heap_extends h (objs w) (objs (world_of (pair_players rev h sA sB w))).
Proof.
  unfold pair_players, createMatch.
  destruct rev; cbn.
  1: destruct (socketsMeta w !! sA); cbn.
  1: destruct (_ !! sB); cbn.
  all: rewrite ?insert_last; apply heap_extends_alloc.
  all: unfold born; simpl; eauto.
Qed.

Lemma pairing_extends rev h q w :
  heap_extends h (objs w) (objs (world_of (pairing rev h q w))).
Proof.
  revert w. induction q as [q IH] using (induction_ltof1 _ (@length _)).
  unfold ltof in IH. intros w.
  destruct q as [|sA [|sB rest]]; simpl; try apply heap_extends_refl.
  pose proof (pair_players_extends rev h sA sB (with_queue rest w)) as Hp.
  destruct (pair_players rev h sA sB (with_queue rest w)) as [w'|w'];
    simpl in Hp; [|exact Hp].
  eapply heap_extends_trans; [exact Hp|]. apply IH. simpl. lia.
Qed.

Lemma join_queue_extends rev h s w :
  heap_extends h (objs w) (objs (world_of (join_queue rev h s w))).
Proof.
  unfold join_queue. destruct (socketsMeta w !! s).
  - apply (pairing_extends rev h _ (with_queue (queue w ++ [s]) w)).
  - apply heap_extends_refl.
Qed.

Lemma create_private_extends h s w :
  heap_extends h (objs w) (objs (world_of (create_private h s w))).
Proof.
  unfold create_private, createMatch. cbn. rewrite insert_last.
  apply heap_extends_alloc. unfold born; simpl. eauto.
Qed.

Lemma hello_objs rev h s p w : objs (world_of (hello rev h s p w)) = objs w.
Proof.
  unfold hello. destruct rev.
  - destruct p as [[u n]|]; [|reflexivity]. destruct (truthy u); reflexivity.
  - destruct (default _ p) as [u n].
    destruct (negb (String.eqb _ "")); reflexivity.
Qed.

Lemma join_by_code_extends h s p w :
  heap_extends h (objs w) (objs (world_of (join_by_code s p w))).
Proof.
  unfold join_by_code. destruct p as [c|]; [|apply heap_extends_refl].
  destruct (find_match _ _ _) as [[a m]|] eqn:F; [|apply heap_extends_refl].
  apply find_match_lookup in F as [Hm _].
  destruct (players_B m) eqn:HB; [apply heap_extends_refl|].
  pose proof (startIfReady_evolves (set_players_B (Some s) m)) as S.
  destruct (startIfReady _) as [m1 out]. cbn in *.
  rewrite list_insert_insert_eq.
  apply heap_extends_insert with (m := m); [assumption|].
  eapply evolves_trans; [|exact S].
  unfold evolves; simpl. repeat split; auto using status_le_refl.
Qed.

Lemma spectate_join_extends h s p w :
  heap_extends h (objs w) (objs (world_of (spectate_join s p w))).
Proof.
  unfold spectate_join, matches_at. destruct p as [k|]; [|apply heap_extends_refl].
  destruct (get_match w k) as [[a m]|] eqn:G; [|destruct (inherited _); try discriminate; apply heap_extends_refl].
  apply get_match_lookup in G.
  destruct (bool_decide _); [apply heap_extends_refl|]. cbn.
  apply heap_extends_insert with (m := m); [assumption|].
  unfold evolves; simpl. repeat split; auto using status_le_refl.
Qed.

Lemma resolve_if_ready_extends rev h a m0 m w :
  objs w !! a = Some m0 -> evolves m0 m ->
  heap_extends h (objs w) (objs (resolve_if_ready rev h a m w)).
Proof.
  intros Hm E. unfold resolve_if_ready.
  destruct (pending_kick m) as [k|], (pending_dive m) as [d|];
    try (cbn; eapply heap_extends_insert; eauto).
  pose proof (resolveShot_evolves rev
                (fun i => Math_random h (n_random w + i)) m k d) as R.
  destruct (resolveShot _ _ _ _ _) as [[m' out] n]. cbn in *.
  eapply heap_extends_insert; eauto using evolves_trans.
Qed.

Lemma set_pending_evolves k d m : evolves m (set_pending k d m).
Proof. unfold evolves; simpl. repeat split; auto using status_le_refl. Qed.

Lemma kick_extends rev h s p w :
  heap_extends h (objs w) (objs (world_of (kick rev h s p w))).
Proof.
  unfold kick, matches_at. destruct p as [[x y]|]; [|apply heap_extends_refl].
  destruct (socketsMeta w !! s) as [meta|]; [|apply heap_extends_refl].
  destruct (get_match w _) as [[a m]|] eqn:G; [|destruct (inherited _); try discriminate; apply heap_extends_refl].
  apply get_match_lookup in G.
  destruct (negb _); [apply heap_extends_refl|].
  destruct (negb _); [apply heap_extends_refl|].
  cbn [world_of]. eapply resolve_if_ready_extends; eauto using set_pending_evolves.
Qed.

Lemma dive_extends rev h s p w :
  heap_extends h (objs w) (objs (world_of (dive rev h s p w))).
Proof.
  unfold dive, matches_at. destruct p as [x|]; [|apply heap_extends_refl].
  destruct (socketsMeta w !! s) as [meta|]; [|apply heap_extends_refl].
  destruct (get_match w _) as [[a m]|] eqn:G; [|destruct (inherited _); try discriminate; apply heap_extends_refl].
  apply get_match_lookup in G.
  destruct (negb _); [apply heap_extends_refl|].
  destruct (negb _); [apply heap_extends_refl|].
  cbn [world_of]. eapply resolve_if_ready_extends; eauto using set_pending_evolves.
Qed.

Lemma disconnect_extends h s w :
  heap_extends h (objs w) (objs (world_of (disconnect s w))).
Proof.
  unfold disconnect, matches_at.
  destruct (socketsMeta w !! s) as [meta|]; [|apply heap_extends_refl].
  destruct (ref_truthy _); [|apply heap_extends_refl].
  destruct (get_match _ _) as [[a m]|] eqn:G; [|destruct (inherited _); try discriminate; apply heap_extends_refl].
  apply get_match_lookup in G. cbn in G.
  destruct (bool_decide _); [apply heap_extends_refl|]. cbn.
  apply heap_extends_insert with (m := m); [assumption|].
  unfold evolves; simpl. repeat split; auto using status_le_finished.
Qed.

Lemma step_extends rev h ev w :
  heap_extends h (objs w) (objs (world_of (step rev h ev w))).
Proof.
  destruct ev as [s e]. destruct e; simpl.
  - apply heap_extends_refl.
  - rewrite hello_objs. apply heap_extends_refl.
  - apply join_queue_extends.
  - apply create_private_extends.
  - apply join_by_code_extends.
  - apply spectate_join_extends.
  - apply kick_extends.
  - apply dive_extends.
  - apply disconnect_extends.
Qed.

Lemma run_extends rev h evs w :
  heap_extends h (objs w) (objs (world_of (run rev h evs w))).
Proof.
  revert w. induction evs as [|ev evs IH]; intros w; simpl.
  - apply heap_extends_refl.
  - pose proof (step_extends rev h ev w) as Hs.
    destruct (step rev h ev w) as [w'|w']; simpl in Hs; [|exact Hs].
    eapply heap_extends_trans; eauto.
Qed.

Lemma reachable_extends rev h w :
  reachable rev h w -> heap_extends h [] (objs w).
Proof.
  induction 1 as [|w ev w' Hr IH Hs].
  - apply heap_extends_refl.
  - eapply heap_extends_trans; [exact IH|].
    pose proof (step_extends rev h ev w) as E. rewrite Hs in E. exact E.
Qed.

Lemma reachable_born rev h w a m :
  reachable rev h w -> objs w !! a = Some m -> born h m.
Proof.
  intros Hr Hm. apply reachable_extends in Hr as [_ Hb].
  apply (Hb a m Hm). reflexivity.
Qed.

(** ** Status is monotone *)

(** C7.  Along every sequence of events, in either revision and whether or
    not the run is cut short by an exception, the status of every match
    object only moves forward in the order waiting, playing, finished: a
    playing match is never waiting again and a finished match stays
    finished. *)
Theorem status_only_moves_forward rev h evs w a m :
  objs w !! a = Some m ->
  exists m',
    objs (world_of (run rev h evs w)) !! a = Some m' /\
    status_le (status m) (status m') /\
    (status m = playing -> status m' <> waiting) /\
    (status m = finished -> status m' = finished).
Proof.
  intros Hm.
  destruct (run_extends rev h evs w) as [Hold _].
  destruct (Hold a m Hm) as (m' & Hm' & E).
  destruct E as (_ & _ & _ & _ & _ & Hle).
  exists m'. repeat split; try assumption.
  - intros Hp Hw. rewrite Hp, Hw in Hle. unfold status_le in Hle. simpl in Hle. lia.
  - intros Hf. rewrite Hf in Hle. unfold status_le in Hle.
    destruct (status m'); simpl in Hle; [lia | lia | reflexivity].
Qed.

Lemma status_only_moves_forward_witness :
  objs (world_of (run server_js demo_host watched init)) !! 0%nat
    = Some watched_match /\
  exists m',
    objs (world_of (run server_js demo_host [(2%nat, on_disconnect)]
            (world_of (run server_js demo_host watched init)))) !! 0%nat
      = Some m' /\
    status_le (status watched_match) (status m') /\
    (status watched_match = playing -> status m' <> waiting) /\
    (status watched_match = finished -> status m' = finished).
Proof.
  assert (Hm : objs (world_of (run server_js demo_host watched init)) !! 0%nat
               = Some watched_match) by (vm_compute; reflexivity).
  split; [exact Hm|].
  exact (status_only_moves_forward server_js demo_host
           [(2%nat, on_disconnect)] _ 0%nat watched_match Hm).
Defined.

(** ** Invite codes *)

Lemma chars_length : length chars = 32%nat.
Proof. reflexivity. Qed.

Lemma chars_unambiguous c : c ∈ chars -> confusable c = false.
Proof.
  assert (H : Forall (fun c => confusable c = false) chars).
  { unfold chars. simpl. repeat constructor. }
  rewrite Forall_forall in H. apply H.
Qed.

Lemma floor_index r :
  (0 <= r /\ r < 1)%Q -> 0 <= Qfloor (r * inject_Z 32) < 32.
Proof.
  intros [H0 H1]. split.
  - change 0 with (Qfloor 0). apply Qfloor_resp_le.
    apply Qmult_le_0_compat; [assumption | discriminate].
  - apply Z.lt_nge. intros Hge.
    assert (Hle : (inject_Z 32 <= r * inject_Z 32)%Q).
    { eapply Qle_trans; [|apply Qfloor_le]. rewrite <- Zle_Qle. exact Hge. }
    assert (Hlt : (r * inject_Z 32 < 1 * inject_Z 32)%Q).
    { apply Qmult_lt_compat_r; [reflexivity | assumption]. }
    rewrite Qmult_1_l in Hlt.
    exact (Qlt_not_le _ _ Hlt Hle).
Qed.

Lemma append_char_spec out r :
  (0 <= r /\ r < 1)%Q ->
  exists c, c ∈ chars /\ append_char out r = String.append out (String c EmptyString).
Proof.
  intros Hr. unfold append_char. rewrite chars_length.
  change (Z.of_nat 32) with 32.
  pose proof (floor_index r Hr) as Hi.
  destruct (Qfloor (r * inject_Z 32)) as [|p|p] eqn:E; [| |lia].
  - exists "A"%char. split; [|reflexivity]. unfold chars. simpl. left.
  - assert (Hlt : (Z.to_nat (Z.pos p) < length chars)%nat)
      by (rewrite chars_length; lia).
    apply lookup_lt_is_Some_2 in Hlt as [c Hc].
    exists c. rewrite Hc. split; [|reflexivity].
    eapply list_elem_of_lookup_2; eauto.
Qed.

Lemma list_of_append s c :
  String.list_ascii_of_string (String.append s (String c EmptyString))
  = String.list_ascii_of_string s ++ [c].
Proof. induction s as [|x s IH]; simpl; [reflexivity | now rewrite IH]. Qed.

Lemma string_length_list s :
  String.length s = length (String.list_ascii_of_string s).
Proof. induction s as [|x s IH]; simpl; [reflexivity | now rewrite IH]. Qed.

Lemma inviteCode_valid h n : random_ok h -> valid_code (inviteCode h n).
Proof.
  intros Hr. unfold inviteCode. simpl foldl.
  assert (Hstep : forall out i,
            exists c, c ∈ chars /\
              append_char out (Math_random h (n + i))
              = String.append out (String c EmptyString))
    by (intros; apply append_char_spec, Hr).
  destruct (Hstep EmptyString 0%nat) as (c0 & I0 & ->).
  destruct (Hstep (String.append EmptyString (String c0 EmptyString)) 1%nat)
    as (c1 & I1 & ->).
  match goal with |- context [append_char ?o (Math_random h (n + 2))] =>
    destruct (Hstep o 2%nat) as (c2 & I2 & ->) end.
  match goal with |- context [append_char ?o (Math_random h (n + 3))] =>
    destruct (Hstep o 3%nat) as (c3 & I3 & ->) end.
  match goal with |- context [append_char ?o (Math_random h (n + 4))] =>
    destruct (Hstep o 4%nat) as (c4 & I4 & ->) end.
  match goal with |- context [append_char ?o (Math_random h (n + 5))] =>
    destruct (Hstep o 5%nat) as (c5 & I5 & ->) end.
  unfold valid_code. rewrite string_length_list.
  rewrite !list_of_append. simpl. split; [reflexivity|].
  repeat (apply List.Forall_cons;
          [split; [assumption | apply chars_unambiguous; assumption]|]).
  apply List.Forall_nil.
Qed.

Lemma run_reachable rev h evs w w' :
  reachable rev h w -> run rev h evs w = Done w' -> reachable rev h w'.
Proof.
  revert w. induction evs as [|ev evs IH]; simpl; intros w Hr Hrun.
  - congruence.
  - destruct (step rev h ev w) as [w1|w1] eqn:Hs; [|discriminate].
    eapply IH; [|exact Hrun]. eapply reachable_step; eauto.
Qed.

Lemma done_world o : is_done o = true -> o = Done (world_of o).
Proof. destruct o; [reflexivity | discriminate]. Qed.

Lemma demo_random_ok : random_ok demo_host.
Proof.
  intros n. unfold demo_host. cbn [Math_random].
  assert (Hn : (n mod 6 < 6)%nat) by (apply Nat.mod_upper_bound; lia).
  revert Hn.
  destruct (n mod 6)%nat as [|[|[|[|[|[|k]]]]]]; intros Hn;
    [split; vm_compute; congruence .. | lia].
Qed.

Lemma two_private_reachable : reachable server_js demo_host two_private_world.
Proof.
  eapply run_reachable; [apply reachable_init|].
  apply done_world. vm_compute. reflexivity.
Qed.

(** C3, the part that fails.  The codes are drawn at random and compared
    with nothing: when [Math.random] repeats itself, two private matches
    wait with the same code. *)
Lemma invite_codes_can_coincide :
  reachable server_js demo_host two_private_world /\
  random_ok demo_host /\
  not (codes_unique two_private_world).
Proof.
  split; [apply two_private_reachable|]. split; [apply demo_random_ok|].
  intros Hu.
  assert (Hms : matches two_private_world
                = [("3f9a1c07", 0%nat); ("b41e88d2", 1%nat)])
    by (vm_compute; reflexivity).
  assert (H0 : objs two_private_world !! 0%nat = Some (two_private_match 0))
    by (vm_compute; reflexivity).
  assert (H1 : objs two_private_world !! 1%nat = Some (two_private_match 1))
    by (vm_compute; reflexivity).
  apply (Hu 0%nat 1%nat (two_private_match 0) (two_private_match 1)).
  - split; [|split; [exact H0 | split; reflexivity]].
    exists "3f9a1c07". rewrite Hms. apply list_elem_of_here.
  - split; [|split; [exact H1 | split; reflexivity]].
    exists "b41e88d2". rewrite Hms. apply list_elem_of_further, list_elem_of_here.
  - discriminate.
  - reflexivity.
Qed.

(** C3, as amended.  In every reachable world a private match carries an
    invite code of six characters, each taken from the alphabet of
    [inviteCode] and none of them I, O, 0 or 1, and a public match carries
    none. *)
Theorem invite_codes_well_formed rev h w a m :
  random_ok h -> reachable rev h w -> objs w !! a = Some m ->
  match match_type m with
  | private => exists c, code m = Some c /\ valid_code c
  | public => code m = None
  end.
Proof.
  intros Hr Hw Hm.
  destruct (reachable_born rev h w a m Hw Hm) as (Hc & _ & _).
  destruct (match_type m); [assumption|].
  destruct Hc as [n Hn]. exists (inviteCode h n).
  split; [assumption | apply inviteCode_valid, Hr].
Qed.

Lemma invite_codes_well_formed_witness :
  random_ok demo_host /\
  reachable server_js demo_host two_private_world /\
  objs two_private_world !! 1%nat = Some (two_private_match 1) /\
  exists c, code (two_private_match 1) = Some c /\ valid_code c.
Proof.
  assert (Hm : objs two_private_world !! 1%nat = Some (two_private_match 1))
    by (vm_compute; reflexivity).
  split; [apply demo_random_ok|]. split; [apply two_private_reachable|].
  split; [exact Hm|].
  exact (invite_codes_well_formed server_js demo_host two_private_world 1%nat
           (two_private_match 1) demo_random_ok two_private_reachable Hm).
Defined.

(** ** Shot resolution and the end of the shootout *)

Ltac shot_cases rev rnd m k d :=
  unfold resolveShot;
  destruct (shot_outcome rev rnd k d) as [[res zone] n];
  destruct res, (turn m) eqn:Ht; simpl; rewrite ?Ht; simpl;
  unfold totalShots, scores_differ; simpl; rewrite ?Ht; simpl;
  repeat match goal with
         | |- context [if ?c then _ else _] => destruct c eqn:?; simpl
         end.

(** The fields of the match after one resolved shot. *)
Lemma resolveShot_fields rev rnd m k d :
  let m' := (resolveShot rev rnd m k d).1.1 in
  totalShots m' = totalShots m + 1 /\
  maxRounds m' = maxRounds m /\
  turn m' = other (turn m) /\
  players_A m' = players_A m /\ players_B m' = players_B m /\
  (status m' = finished \/ status m' = status m).
Proof.
  shot_cases rev rnd m k d.
  all: rewrite ?Ht; simpl; repeat split; auto; lia.
Qed.

(** [resolveShot] finishes the match exactly when the shot count has
    reached [maxRounds * 2] and the scores differ. *)
Lemma resolveShot_finishes rev rnd m k d :
  let m' := (resolveShot rev rnd m k d).1.1 in
  maxRounds m * 2 <= totalShots m' -> score_A m' <> score_B m' ->
  status m' = finished.
Proof.
  shot_cases rev rnd m k d.
  all: rewrite ?Ht; simpl; intros; try reflexivity; try lia.
Qed.

Lemma resolveShot_continues rev rnd m k d :
  let m' := (resolveShot rev rnd m k d).1.1 in
  totalShots m' < maxRounds m * 2 \/ score_A m' = score_B m' ->
  status m' = status m.
Proof.
  shot_cases rev rnd m k d.
  all: rewrite ?Ht; simpl; intros; try reflexivity; try lia.
Qed.

(** When it finishes the match, [resolveShot] tells both players and every
    spectator who scored more. *)
Lemma resolveShot_winner rev rnd m k d :
  let m' := (resolveShot rev rnd m k d).1.1 in
  let out := (resolveShot rev rnd m k d).1.2 in
  let over :=
    match_over (winner_slot (if score_A m' >? score_B m' then A else B))
      (score m') None in
  maxRounds m * 2 <= totalShots m' -> score_A m' <> score_B m' ->
  In (players_A m', over) out /\ In (players_B m', over) out /\
  (forall s, In s (spectators m') -> In (Some s, over) out).
Proof.
  shot_cases rev rnd m k d.
  all: rewrite ?Ht; simpl; intros Hshots Hdiff; try lia.
  all: unfold score; simpl.
  all: repeat match goal with
       | |- context [?a >? ?b] => destruct (Z.gtb_spec a b); try lia
       end.
  all: repeat split;
       [ do 2 right; apply in_or_app; right; simpl; auto
       | do 2 right; apply in_or_app; right; simpl; auto
       | intros s Hs; do 2 right; apply in_or_app; right; do 2 right;
         unfold to_spectators; simpl;
         apply (in_map (fun s => (Some s, _)) _ _ Hs) ].
Qed.

Lemma play_shot_playing rev m out i :
  status m = playing ->
  play_shot rev (m, out) i
  = ((resolveShot rev (shot_rnd i) m (shot_kick i) (shot_dive i)).1.1,
     out ++ (resolveShot rev (shot_rnd i) m (shot_kick i) (shot_dive i)).1.2).
Proof.
  intros Hs. unfold play_shot. rewrite Hs.
  destruct (resolveShot _ _ _ _ _) as [[m1 out1] n]. reflexivity.
Qed.

Lemma play_shots_before_the_end rev shots : forall m out,
  status m = playing ->
  totalShots m + Z.of_nat (length shots) < maxRounds m * 2 ->
  let st := foldl (play_shot rev) (m, out) shots in
  status st.1 = playing /\
  totalShots st.1 = totalShots m + Z.of_nat (length shots) /\
  maxRounds st.1 = maxRounds m.
Proof.
  induction shots as [|i shots IH]; intros m out Hs Hlt.
  - simpl in *. repeat split; auto; lia.
  - cbn [foldl]. rewrite (play_shot_playing rev m out i Hs).
    pose proof (resolveShot_fields rev (shot_rnd i) m (shot_kick i) (shot_dive i))
      as (Ht & Hmax & _).
    pose proof (resolveShot_continues rev (shot_rnd i) m (shot_kick i) (shot_dive i))
      as Hc.
    destruct (resolveShot _ _ _ _ _) as [[m1 out1] n]. cbn [fst snd] in *.
    rewrite length_cons, Nat2Z.inj_succ in Hlt.
    assert (Hs1 : status m1 = playing) by (rewrite Hc; [assumption | lia]).
    specialize (IH m1 (out ++ out1) Hs1).
    rewrite Ht, Hmax in IH. specialize (IH ltac:(lia)).
    cbn zeta in IH. destruct IH as (I1 & I2 & I3).
    rewrite length_cons, Nat2Z.inj_succ.
    repeat split; auto; lia.
Qed.

(** C6.  A match that starts (round 1, A to kick, five rounds) and sees ten
    shots resolved has a shot count of ten; if the scores then differ it is
    finished and both players and the spectators are told that the higher
    scorer won, and if they are equal it is still playing, in round
    [maxRounds + 1]. *)
Theorem regulation_ending rev m shots :
  status m = playing -> round m = 1 -> turn m = A -> maxRounds m = 5 ->
  length shots = 10%nat ->
  let m' := (play_shots rev m shots).1 in
  let out := (play_shots rev m shots).2 in
  let over :=
    match_over (winner_slot (if score_A m' >? score_B m' then A else B))
      (score m') None in
  totalShots m' = 10 /\
  (score_A m' <> score_B m' ->
     status m' = finished /\
     In (players_A m', over) out /\ In (players_B m', over) out /\
     (forall s, In s (spectators m') -> In (Some s, over) out)) /\
  (score_A m' = score_B m' ->
     status m' = playing /\ round m' = maxRounds m' + 1).
Proof.
  intros Hs Hr Ht Hmax Hlen.
  assert (Hsplit : shots = take 9 shots ++ drop 9 shots)
    by (symmetry; apply take_drop).
  assert (Hlast : exists i, drop 9 shots = [i]).
  { assert (Hl : length (drop 9 shots) = 1%nat) by (rewrite length_drop; lia).
    destruct (drop 9 shots) as [|i [|]]; try discriminate. eauto. }
  destruct Hlast as [i Hi]. rewrite Hi in Hsplit.
  assert (H0 : totalShots m = 0)
    by (unfold totalShots; rewrite Hr, Ht; reflexivity).
  unfold play_shots. rewrite Hsplit, foldl_app. cbn [foldl].
  pose proof (play_shots_before_the_end rev (take 9 shots) m [] Hs) as H9.
  rewrite length_take, Hlen, H0, Hmax in H9.
  specialize (H9 ltac:(lia)). cbn zeta in H9.
  destruct (foldl (play_shot rev) (m, []) (take 9 shots)) as [m9 out9].
  cbn [fst snd] in H9. destruct H9 as (S9 & T9 & M9).
  rewrite (play_shot_playing rev m9 out9 i S9).
  pose proof (resolveShot_fields rev (shot_rnd i) m9 (shot_kick i) (shot_dive i))
    as (Tn & Mn & _).
  pose proof (resolveShot_finishes rev (shot_rnd i) m9 (shot_kick i) (shot_dive i))
    as Hfin.
  pose proof (resolveShot_continues rev (shot_rnd i) m9 (shot_kick i) (shot_dive i))
    as Hcont.
  pose proof (resolveShot_winner rev (shot_rnd i) m9 (shot_kick i) (shot_dive i))
    as Hwin.
  destruct (resolveShot _ _ _ _ _) as [[m10 out10] n]. cbn [fst snd] in *.
  assert (T10 : totalShots m10 = 10) by lia.
  split; [exact T10|]. split.
  - intros Hd. split; [apply Hfin; lia|].
    destruct (Hwin ltac:(lia) Hd) as (WA & WB & WS).
    repeat split; intros; apply in_or_app; right; auto.
  - intros He. split; [rewrite Hcont; [assumption | right; assumption]|].
    rewrite Mn, M9. unfold totalShots in T10.
    destruct (decide (turn m10 = A)); lia.
Qed.

Lemma regulation_ending_witness :
  length ten_shots = 10%nat /\
  score (play_shots server_js started_match ten_shots).1 = (5, 0) /\
  status (play_shots server_js started_match ten_shots).1 = finished.
Proof.
  split; [reflexivity|]. split; [vm_compute; reflexivity|].
  destruct (regulation_ending server_js started_match ten_shots
              eq_refl eq_refl eq_refl eq_refl eq_refl) as (_ & Hd & _).
  assert (Hne : score_A (play_shots server_js started_match ten_shots).1
                <> score_B (play_shots server_js started_match ten_shots).1)
    by (vm_compute; discriminate).
  exact (proj1 (Hd Hne)).
Defined.

(** ** Joining by invite code *)






(** ** Matchmaking *)

(** One turn of the pairing loop, for two registered sockets: a new public
    match with the first socket in slot A and the second in slot B, already
    playing; the registry keeps every socket it had. *)
Lemma pair_players_spec rev h sA sB w :
  is_Some (socketsMeta w !! sA) -> is_Some (socketsMeta w !! sB) ->
  exists w' m,
    pair_players rev h sA sB w = Done w' /\
    objs w' = objs w ++ [m] /\ queue w' = queue w /\
    match_type m = public /\ status m = playing /\
    players_A m = Some sA /\ players_B m = Some sB /\
    (forall s, is_Some (socketsMeta w !! s) -> is_Some (socketsMeta w' !! s)).
Proof.
  intros [mA HA] [mB HB]. unfold pair_players, createMatch.
  destruct rev; cbn.
  - rewrite HA. cbn.
    assert (HB' : is_Some (<[sA := assign_match (fresh_id h (n_id w)) role_A mA]>
                             (socketsMeta w) !! sB)).
    { rewrite lookup_insert. case_decide; eauto. }
    destruct HB' as [mB' ->]. cbn.
    eexists. eexists. split; [reflexivity|]. cbn.
    rewrite list_insert_insert_eq, insert_last.
    repeat split; try reflexivity.
    intros s [x Hx]. rewrite !lookup_insert. repeat case_decide; eauto.
  - eexists. eexists. split; [reflexivity|]. cbn.
    rewrite list_insert_insert_eq, insert_last.
    repeat split; try reflexivity.
    intros s [x Hx]. rewrite !lookup_insert. repeat case_decide; eauto.
Qed.

Lemma join_queue_first rev h s w :
  queue w = [] -> is_Some (socketsMeta w !! s) ->
  join_queue rev h s w = Done (with_queue [s] w).
Proof.
  intros Hq [x Hx]. unfold join_queue. rewrite Hx, Hq. reflexivity.
Qed.

Lemma join_queue_second rev h s x w w' :
  queue w = [x] -> is_Some (socketsMeta w !! s) ->
  pair_players rev h x s (with_queue [] w) = Done w' ->
  join_queue rev h s w = Done w'.
Proof.
  intros Hq [y Hy] Hp. unfold join_queue. rewrite Hy, Hq.
  cbn [app queue with_queue pairing].
  change (with_queue [] _) with (with_queue [] w). rewrite Hp. reflexivity.
Qed.

(** C8.  Pairing is first come, first served.  Four registered sockets
    join an empty queue one after the other: the first match created is
    public and holds the first socket as A and the second as B, the second
    match holds the third as A and the fourth as B.  And whatever else is
    queued behind them, a turn of the pairing loop takes the two oldest
    entries, the older one for slot A. *)
Theorem pairing_is_fifo rev h w c1 c2 c3 c4 :
  queue w = [] ->
  is_Some (socketsMeta w !! c1) -> is_Some (socketsMeta w !! c2) ->
  is_Some (socketsMeta w !! c3) -> is_Some (socketsMeta w !! c4) ->
  (exists w' m1 m2,
     run rev h [ (c1, on_join_queue); (c2, on_join_queue);
                 (c3, on_join_queue); (c4, on_join_queue) ] w = Done w' /\
     objs w' = objs w ++ [m1; m2] /\ queue w' = [] /\
     match_type m1 = public /\ status m1 = playing /\
     players_A m1 = Some c1 /\ players_B m1 = Some c2 /\
     match_type m2 = public /\ status m2 = playing /\
     players_A m2 = Some c3 /\ players_B m2 = Some c4) /\
  (forall rest,
     exists w1 m,
       objs w1 = objs w ++ [m] /\ queue w1 = rest /\
       match_type m = public /\
       players_A m = Some c1 /\ players_B m = Some c2 /\
       pairing rev h (c1 :: c2 :: rest) w = pairing rev h rest w1).
Proof.
  intros Hq H1 H2 H3 H4. split.
  - destruct (pair_players_spec rev h c1 c2 (with_queue [] (with_queue [c1] w)))
      as (w2 & m1 & Hp & Ho & Hq2 & T1 & S1 & A1 & B1 & Hreg); [assumption..|].
    cbn in Ho, Hq2.
    destruct (pair_players_spec rev h c3 c4 (with_queue [] (with_queue [c3] w2)))
      as (w4 & m2 & Hp4 & Ho4 & Hq4 & T2 & S2 & A2 & B2 & _);
      [apply Hreg; assumption..|].
    cbn in Ho4, Hq4.
    exists w4, m1, m2. split.
    + cbn [run step].
      rewrite (join_queue_first rev h c1 w Hq H1).
      rewrite (join_queue_second rev h c2 c1 (with_queue [c1] w) w2
                 eq_refl H2 Hp).
      rewrite (join_queue_first rev h c3 w2 Hq2 (Hreg c3 H3)).
      rewrite (join_queue_second rev h c4 c3 (with_queue [c3] w2) w4
                 eq_refl (Hreg c4 H4) Hp4).
      reflexivity.
    + rewrite Ho4, Ho, <- app_assoc. repeat split; assumption.
  - intros rest.
    destruct (pair_players_spec rev h c1 c2 (with_queue rest w) H1 H2)
      as (w1 & m & Hp & Ho & Hq1 & Ht & _ & PA & PB & _).
    exists w1, m. cbn in Ho, Hq1. repeat split; try assumption.
    cbn [pairing]. rewrite Hp. reflexivity.
Qed.

Lemma pairing_is_fifo_witness :
  queue four_connected = [] /\
  exists w' m1 m2,
    run server_js demo_host
      [ (1%nat, on_join_queue); (2%nat, on_join_queue);
        (3%nat, on_join_queue); (4%nat, on_join_queue) ] four_connected
      = Done w' /\
    objs w' = [m1; m2] /\
    players_A m1 = Some 1%nat /\ players_B m1 = Some 2%nat /\
    players_A m2 = Some 3%nat /\ players_B m2 = Some 4%nat.
Proof.
  split; [reflexivity|].
  destruct (pairing_is_fifo server_js demo_host four_connected
              1%nat 2%nat 3%nat 4%nat)
    as [(w' & m1 & m2 & Hrun & Ho & _ & _ & _ & A1 & B1 & _ & _ & A2 & B2) _].
  - reflexivity.
  - vm_compute. eauto.
  - vm_compute. eauto.
  - vm_compute. eauto.
  - vm_compute. eauto.
  - exists w', m1, m2. repeat split; assumption.
Defined.

(** ** Disconnection *)

(** The handler never looks at [meta.role]: whoever leaves, if its meta
    points at a match that is not finished, that match is finished on the
    spot, its spectator set untouched. *)
Lemma disconnect_finishes_pointed_match s w meta a m :
  socketsMeta w !! s = Some meta -> ref_truthy (matchId meta) = true ->
  get_match w (property_key (matchId meta)) = Some (a, m) ->
  status m <> finished ->
  exists w' winner,
    disconnect s w = Done w' /\
    objs w' !! a = Some (set_status finished m) /\
    emitted w' = emitted w
      ++ [ (players_A m, match_over winner (score m) opponent_disconnected);
           (players_B m, match_over winner (score m) opponent_disconnected) ]
      ++ to_spectators m (match_over winner (score m) opponent_disconnected).
Proof.
  intros Hmeta Ht Hget Hst. unfold disconnect, matches_at. rewrite Hmeta, Ht.
  change (get_match (with_queue _ (with_socketsMeta _ w)) ?k)
    with (get_match w k).
  rewrite Hget. rewrite bool_decide_eq_false_2 by assumption.
  eexists. eexists. split; [reflexivity|]. split; [|reflexivity].
  cbn. apply list_lookup_insert_eq.
  apply get_match_lookup in Hget. eapply lookup_lt_Some; eauto.
Qed.

(** C1.  Socket 3 only watches the private match of sockets 1 and 2.
    When it disconnects, in either revision, the match goes from playing to
    finished, [match_over] with winner A and reason [opponent_disconnected]
    goes to both players and to the spectator, and the spectator set still
    holds socket 3. *)
Theorem spectator_disconnect_finishes_match rev :
  let w := world_of (run rev demo_host watched init) in
  let w' := world_of (disconnect 3%nat w) in
  let over := match_over (winner_slot A) (0, 0) opponent_disconnected in
  objs w !! 0%nat = Some watched_match /\
  socketsMeta w !! 3%nat = Some watcher_meta /\
  objs w' !! 0%nat = Some (set_status finished watched_match) /\
  spectators (set_status finished watched_match) = [3%nat] /\
  emitted w' = emitted w
    ++ [ (Some 1%nat, over); (Some 2%nat, over); (Some 3%nat, over) ].
Proof. destruct rev; vm_compute; repeat split; reflexivity. Qed.

(** [resolveShot] itself finishes a match only once the shot count has
    reached [maxRounds * 2]. *)
Lemma resolveShot_finishes_late rev rnd m k d :
  status m <> finished ->
  status (resolveShot rev rnd m k d).1.1 = finished ->
  maxRounds m * 2 <= totalShots (resolveShot rev rnd m k d).1.1.
Proof.
  intros Hs Hf.
  pose proof (resolveShot_continues rev rnd m k d) as Hc. cbn zeta in Hc.
  destruct (Z.le_gt_cases (maxRounds m * 2)
              (totalShots (resolveShot rev rnd m k d).1.1)) as [|Hlt];
    [assumption|].
  rewrite Hc in Hf by (left; lia). contradiction.
Qed.

(** Resolving a shot of a playing match keeps [late_finish]. *)
Lemma late_finish_resolve rev h a m w :
  status m = playing -> maxRounds m = 5 ->
  Forall late_finish (objs w) ->
  Forall late_finish (objs (resolve_if_ready rev h a m w)).
Proof.
  intros Hs Hmax Hw. unfold resolve_if_ready.
  assert (Hm : late_finish m) by (split; [assumption | congruence]).
  destruct (pending_kick m) as [k|], (pending_dive m) as [d|];
    try (cbn; apply Forall_insert; assumption).
  pose proof (resolveShot_fields rev
                (fun i => Math_random h (n_random w + i)) m k d)
    as (_ & Hmax' & _).
  pose proof (resolveShot_finishes_late rev
                (fun i => Math_random h (n_random w + i)) m k d) as Hlate.
  destruct (resolveShot _ _ _ _ _) as [[m' out] n]. cbn in *.
  apply Forall_insert; [assumption|]. split; [congruence|].
  intros Hf. rewrite Hmax in Hlate. apply Hlate; congruence.
Qed.

Lemma late_finish_step rev h s e w :
  e <> on_disconnect ->
  Forall late_finish (objs w) ->
  Forall late_finish (objs (world_of (step rev h (s, e) w))).
Proof.
  intros He Hw.
  assert (Hget : forall a m, objs w !! a = Some m -> late_finish m)
    by (intros a m; apply (proj1 (Forall_lookup _ _) Hw)).
  destruct e; try contradiction; cbn [step].
  - exact Hw.
  - rewrite hello_objs. exact Hw.
  - unfold join_queue. destruct (socketsMeta w !! s); [|exact Hw].
    generalize (with_queue (queue w ++ [s]) w) (eq_refl : objs (with_queue (queue w ++ [s]) w) = objs w).
    intros w0 Hw0. rewrite <- Hw0 in Hw. clear Hw0 Hget.
    generalize (queue w0). intros q. revert w0 Hw.
    induction q as [q IH] using (induction_ltof1 _ (@length _)).
    unfold ltof in IH. intros w0 Hw.
    destruct q as [|sA [|sB rest]]; cbn [pairing world_of]; try exact Hw.
    assert (Hp : Forall late_finish
                   (objs (world_of (pair_players rev h sA sB (with_queue rest w0))))).
    { unfold pair_players, createMatch. destruct rev; cbn.
      1: destruct (socketsMeta w0 !! sA); cbn.
      1: destruct (_ !! sB); cbn.
      all: rewrite ?insert_last; apply Forall_app; split; [exact Hw|].
      all: apply Forall_singleton; split; [reflexivity | discriminate]. }
    destruct (pair_players rev h sA sB (with_queue rest w0)) as [w1|w1];
      cbn [world_of] in *; [|exact Hp].
    apply IH; [simpl; lia | exact Hp].
  - unfold create_private, createMatch. cbn. rewrite insert_last.
    apply Forall_app; split; [exact Hw|].
    apply Forall_singleton; split; [reflexivity | discriminate].
  - unfold join_by_code. destruct payload as [c|]; [|exact Hw].
    destruct (find_match _ _ _) as [[a m]|] eqn:F; [|exact Hw].
    apply find_match_lookup in F as [Hm Hp].
    apply andb_prop in Hp as [_ Hst]. apply bool_decide_eq_true in Hst.
    destruct (players_B m) eqn:HB; [exact Hw|].
    destruct (Hget a m Hm) as [Hmax _].
    unfold startIfReady. cbn. rewrite Hst.
    destruct (players_A m); cbn.
    all: rewrite ?list_insert_insert_eq; apply Forall_insert; [exact Hw|].
    all: split; cbn; [assumption | congruence].
  - unfold spectate_join, matches_at. destruct payload as [k|]; [|exact Hw].
    destruct (get_match w k) as [[a m]|] eqn:G; [|destruct (inherited _); try discriminate; exact Hw].
    apply get_match_lookup in G.
    destruct (bool_decide _); [exact Hw|]. cbn.
    apply Forall_insert; [exact Hw|].
    destruct (Hget a m G) as [Hmax Hfin]. split; [assumption|exact Hfin].
  - unfold kick, matches_at. destruct payload as [[x y]|]; [|exact Hw].
    destruct (socketsMeta w !! s) as [meta|]; [|exact Hw].
    destruct (get_match w _) as [[a m]|] eqn:G; [|destruct (inherited _); try discriminate; exact Hw].
    apply get_match_lookup in G.
    destruct (bool_decide (status m = playing)) eqn:Hs; [|exact Hw].
    apply bool_decide_eq_true in Hs. cbn [negb].
    destruct (negb _); [exact Hw|].
    cbn [world_of]. apply late_finish_resolve; try assumption.
    exact (proj1 (Hget a m G)).
  - unfold dive, matches_at. destruct payload as [x|]; [|exact Hw].
    destruct (socketsMeta w !! s) as [meta|]; [|exact Hw].
    destruct (get_match w _) as [[a m]|] eqn:G; [|destruct (inherited _); try discriminate; exact Hw].
    apply get_match_lookup in G.
    destruct (bool_decide (status m = playing)) eqn:Hs; [|exact Hw].
    apply bool_decide_eq_true in Hs. cbn [negb].
    destruct (negb _); [exact Hw|].
    cbn [world_of]. apply late_finish_resolve; try assumption.
    exact (proj1 (Hget a m G)).
Qed.

(** Along a run in which nobody disconnects, no match of five rounds is
    finished before its shot count has reached ten. *)
Lemma no_early_finish_without_disconnect rev h evs w :
  Forall (fun ev => ev.2 <> on_disconnect) evs ->
  Forall late_finish (objs w) ->
  Forall late_finish (objs (world_of (run rev h evs w))).
Proof.
  revert w. induction evs as [|[s e] evs IH]; intros w Hevs Hw; cbn [run].
  - exact Hw.
  - apply Forall_cons in Hevs as [He Hevs].
    pose proof (late_finish_step rev h s e w He Hw) as Hs.
    destruct (step rev h (s, e) w) as [w'|w']; cbn [world_of] in *; auto.
Qed.

(** C10.  Sockets 1 and 2 play the private match and stay connected; three
    shots are resolved (two goals for A, one for B); then the spectator
    disconnects and the match is finished with a shot count of three. *)
Theorem match_finished_after_three_shots rev :
  let w := world_of (run rev demo_host
                       (watched ++ shot_by A "left" ++ shot_by B "left"
                        ++ shot_by A "left" ++ [(3%nat, on_disconnect)])
                       init) in
  exists m,
    objs w !! 0%nat = Some m /\ status m = finished /\
    totalShots m = 3 /\ maxRounds m * 2 = 10 /\ score m = (2, 1) /\
    players_A m = Some 1%nat /\ players_B m = Some 2%nat /\
    is_Some (socketsMeta w !! 1%nat) /\ is_Some (socketsMeta w !! 2%nat).
Proof.
  destruct rev; vm_compute; eexists; repeat split; eauto.
Qed.

(** ** Sudden death *)

(** In sudden death with the scores level and A to kick, a goal by A ends
    the match at once: the first test of the ending condition fires before
    the one meant for the closed pair is reached. *)
Lemma sudden_death_goal_by_A_finishes rev rnd m k d :
  maxRounds m < round m -> turn m = A -> score_A m = score_B m ->
  (shot_outcome rev rnd k d).1.1 = goal ->
  status (resolveShot rev rnd m k d).1.1 = finished /\
  turn (resolveShot rev rnd m k d).1.1 = B /\
  round (resolveShot rev rnd m k d).1.1 = round m.
Proof.
  shot_cases rev rnd m k d.
  all: rewrite ?Ht; simpl; intros; try discriminate; try lia; auto.
Qed.

(** C2.  Sockets 1 and 2 are paired and score five goals each in
    regulation: the match is in round 6, level, A to kick.  A scores; in
    either revision the match is finished right away, A is announced as the
    winner, and B never takes its shot of the pair. *)
Theorem sudden_death_ends_on_A_shot rev :
  let w10 := world_of (run rev demo_host (paired ++ regulation) init) in
  let w11 := world_of (run rev demo_host (shot_by A "left") w10) in
  let shot := shot_result goal z_center (6, 5) 6 B in
  let over := match_over (winner_slot A) (6, 5) None in
  objs w10 !! 0%nat = Some tied_match /\
  objs w11 !! 0%nat
    = Some (set_turn B (set_status finished (set_score 6 5 tied_match))) /\
  emitted w11 = emitted w10
    ++ [ (Some 1%nat, shot); (Some 2%nat, shot);
         (Some 1%nat, over); (Some 2%nat, over) ].
Proof. destruct rev; vm_compute; repeat split; reflexivity. Qed.

(** ** The handshake *)

(** [part_000] answers every [hello], whatever the payload: the meta of the
    socket gets a non-empty uid (the client's, or a generated guest id) and
    a non-empty nick (the client's, trimmed, or the default), and the reply
    carries the server time and both. *)
Lemma hello_part_000_replies h s payload w :
  exists w' u n,
    hello part_000 h s payload w = Done w' /\
    u <> EmptyString /\ n <> EmptyString /\
    (exists meta, socketsMeta w' !! s = Some meta /\
                  uid meta = VString u /\ nick meta = VString n) /\
    emitted w' = emitted w
      ++ [(Some s, hello_ok (Date_now h (n_now w))
                     (Some (VString u)) (Some (VString n)))] /\
    (forall x y, payload = Some (VString x, y) -> x <> EmptyString -> u = x) /\
    (forall x, payload = Some (x, VUndefined) -> n = "Invitado") /\
    (payload = None ->
       u = String.append "guest_" (fresh_id h (n_id w)) /\ n = "Invitado").
Proof.
  unfold hello.
  destruct (default (VUndefined, VUndefined) payload) as [pu pn] eqn:Hp.
  set (raw := match pu with VString u => u | _ => EmptyString end).
  set (n := match pn with
            | VString n => if negb (String.eqb (String_trim h n) "")
                           then String_trim h n else "Invitado"
            | _ => "Invitado" end).
  assert (Hn : n <> EmptyString).
  { subst n. destruct pn; try discriminate.
    destruct (String.eqb_spec (String_trim h s0) ""); simpl;
      [discriminate | assumption]. }
  assert (Hnick : forall x, payload = Some (x, VUndefined) -> n = "Invitado").
  { intros x ->. simpl in Hp. injection Hp as <- <-. reflexivity. }
  assert (Hnone : payload = None -> raw = EmptyString /\ n = "Invitado").
  { intros ->. simpl in Hp. injection Hp as <- <-. auto. }
  assert (Hgiven : forall x y, payload = Some (VString x, y) -> raw = x).
  { intros x y ->. simpl in Hp. injection Hp as <- <-. reflexivity. }
  destruct (String.eqb_spec raw "") as [Hraw|Hraw]; simpl.
  - eexists. exists (String.append "guest_" (fresh_id h (n_id w))), n.
    split; [reflexivity|]. split; [discriminate|]. split; [assumption|].
    split; [|split; [reflexivity|split; [|split]]].
    + eexists. cbn. rewrite lookup_insert_eq. eauto.
    + intros x y Hxy Hx. apply Hgiven in Hxy. congruence.
    + exact Hnick.
    + intros Hnp. destruct (Hnone Hnp). auto.
  - eexists. exists raw, n.
    split; [reflexivity|]. split; [assumption|]. split; [assumption|].
    split; [|split; [reflexivity|split; [|split]]].
    + eexists. cbn. rewrite lookup_insert_eq. eauto.
    + intros x y Hxy Hx. apply Hgiven in Hxy. congruence.
    + exact Hnick.
    + intros Hnp. destruct (Hnone Hnp). contradiction.
Qed.

(** [server.js] replies with the server time alone, and only when the
    payload brings a truthy uid. *)
Lemma hello_server_js_outcome h s payload w :
  match payload with
  | Some (u, n) =>
      if truthy u then
        exists w', hello server_js h s payload w = Done w' /\
          emitted w' = emitted w
            ++ [(Some s, hello_ok (Date_now h (n_now w)) None None)]
      else hello server_js h s payload w = Thrown w
  | None => hello server_js h s payload w = Thrown w
  end.
Proof.
  destruct payload as [[u n]|]; [|reflexivity]. simpl.
  destruct (truthy u); [|reflexivity]. eexists. split; reflexivity.
Qed.

(** C4.  In [server.js], a connected socket that says hello with a uid and
    a nick gets [hello_ok] with the server time and neither uid nor nick;
    one that says hello without a uid gets no reply at all: the handler is
    aborted by a TypeError and the world is as before. *)
Theorem hello_ok_server_js :
  let w := world_of (connection 1%nat init) in
  (exists w',
     hello server_js demo_host 1%nat (Some (VString "u-77", VString "Ana")) w
       = Done w' /\
     emitted w' = [(Some 1%nat, hello_ok 1700000000000 None None)]) /\
  hello server_js demo_host 1%nat (Some (VUndefined, VString "Ana")) w
    = Thrown w.
Proof. split; [eexists; split; reflexivity | reflexivity]. Qed.

(** A [kick], [dive], [join_by_code] or [spectate_join] without a payload
    object is aborted in the destructuring of its parameter, in both
    revisions; only the [hello] of [part_000] guards against it. *)
Lemma no_payload_throws rev h s w :
  kick rev h s None w = Thrown w /\ dive rev h s None w = Thrown w /\
  join_by_code s None w = Thrown w /\ spectate_join s None w = Thrown w /\
  hello server_js h s None w = Thrown w.
Proof. repeat split; reflexivity. Qed.

(** ** Inputs of the shot arithmetic *)

Lemma Qltb_lt x y : Qltb x y = true -> (x < y)%Q.
Proof.
  unfold Qltb. intros H. apply Qnot_le_lt. intros Hle.
  apply Qle_bool_iff in Hle. rewrite Hle in H. discriminate.
Qed.

Lemma Qltb_ge x y : Qltb x y = false -> (y <= x)%Q.
Proof.
  unfold Qltb. intros H. apply Qle_bool_iff.
  destruct (Qle_bool y x); [reflexivity | discriminate].
Qed.

(** Clamping anything but [NaN] lands in the interval. *)
Lemma clamp_in_range lo hi x :
  (lo <= hi)%Q -> x <> NaN ->
  in_range lo hi (Math_max (Fin lo) (Math_min (Fin hi) x)).
Proof.
  intros Hlh Hx. destruct x as [| |q|]; [contradiction| | |]; simpl.
  - split; [apply Qle_refl | assumption].
  - destruct (Qltb q hi) eqn:E1; simpl.
    + destruct (Qltb lo q) eqn:E2; simpl.
      * split; [apply Qlt_le_weak, Qltb_lt | apply Qlt_le_weak, Qltb_lt];
          assumption.
      * split; [apply Qle_refl | assumption].
    + destruct (Qltb lo hi) eqn:E2; simpl.
      * split; [assumption | apply Qle_refl].
      * split; [apply Qle_refl | assumption].
  - destruct (Qltb lo hi) eqn:E2; simpl.
    + split; [assumption | apply Qle_refl].
    + split; [apply Qle_refl | assumption].
Qed.

Lemma or_zero_not_NaN x : or_zero x <> NaN.
Proof. unfold or_zero. destruct x; simpl; try discriminate.
  destruct (negb (Qzero q)); discriminate. Qed.

(** [part_000] feeds [resolveShot] an angle in [-60, 60] and a power in
    [0, 1] whatever the two fields of the payload were, and the dive is one
    of the three zones by construction; in [server.js] the same holds of
    the angle. *)
Lemma part_000_inputs_in_range h angle power :
  in_range (-60) 60 (shot_angle part_000 (stored_kick h angle power)) /\
  in_range 0 1 (shot_power part_000 (stored_kick h angle power)) /\
  in_range (-60) 60 (shot_angle server_js (stored_kick h angle power)).
Proof.
  unfold shot_angle, shot_power, stored_kick; simpl.
  repeat split; apply clamp_in_range;
    auto using or_zero_not_NaN; discriminate.
Qed.

(** C5.  In [server.js], a kick whose payload has no numeric [power01]
    stores [NaN], and [NaN] is the power [resolveShot] computes with.  In
    the third shot of this run the keeper dives to the zone of the ball: the
    save probability is [NaN], no draw is below it, and the shot is a goal;
    [part_000], which reads the missing power as 0, has it saved. *)
Theorem kick_power_NaN_server_js :
  let k := stored_kick demo_host (VNumber (Fin 10)) VUndefined in
  let evs := paired ++ shot_by A "left" ++ shot_by B "left"
             ++ [kick_without_power; (2%nat, on_dive (Some (VString "center")))] in
  power01 k = NaN /\ shot_power server_js k = NaN /\
  not (in_range 0 1 (shot_power server_js k)) /\
  In (Some 2%nat, shot_result goal z_center (2, 1) 2 B)
     (emitted (world_of (run server_js demo_host evs init))) /\
  In (Some 2%nat, shot_result save z_center (1, 1) 2 B)
     (emitted (world_of (run part_000 demo_host evs init))).
Proof.
  split; [reflexivity|]. split; [reflexivity|].
  split; [intros H; exact H|].
  split; vm_compute; repeat (first [left; reflexivity | right]).
Qed.

(** * Further properties of the code *)

(** ** Invariants of the reachable worlds *)

Lemma sound_created_private id c s :
  sound_match
    (set_players_A (Some s)
       {| match_id := id; status := waiting; match_type := private;
          code := c; players_A := None; players_B := None;
          spectators := []; round := 1; maxRounds := 5;
          score_A := 0; score_B := 0; turn := A;
          pending_kick := None; pending_dive := None |}).
Proof.
  unfold sound_match, shots_by; simpl.
  repeat split; eauto; try lia; discriminate.
Qed.

Lemma sound_resolveShot rev rnd m k d :
  sound_match m -> status m = playing ->
  sound_match (resolveShot rev rnd (set_pending (Some k) (Some d) m) k d).1.1.
Proof.
  intros (Hr & [HA0 HA1] & [HB0 HB1] & HpA & HpB & Hwait & Hpend) Hs.
  specialize (HpB Hs).
  unfold sound_match, shots_by in *.
  unfold resolveShot.
  destruct (shot_outcome rev rnd k d) as [[res zone] n].
  destruct res, (turn m) eqn:Ht; simpl; rewrite ?Ht; simpl;
    unfold totalShots, scores_differ; simpl; rewrite ?Ht; simpl.
  all: repeat match goal with
         | |- context [if ?c then _ else _] => destruct c eqn:?; simpl
         end.
  all: rewrite ?Ht, ?Hs; simpl.
  all: repeat split; auto; try lia; try discriminate; try congruence.
Qed.

Lemma sound_set_spectators v m : sound_match m -> sound_match (set_spectators v m).
Proof. unfold sound_match, shots_by; simpl. tauto. Qed.

Lemma sound_finished m : sound_match m -> sound_match (set_status finished m).
Proof.
  unfold sound_match, shots_by; simpl.
  intros (H1 & H2 & H3 & H4 & _ & _ & H7).
  repeat split; try tauto; try discriminate.
Qed.

Lemma sound_one_pending k d m :
  sound_match m -> status m = playing -> k = None \/ d = None ->
  sound_match (set_pending k d m).
Proof.
  unfold sound_match, shots_by; simpl.
  intros (H1 & H2 & H3 & H4 & H5 & _ & _) Hs Hkd.
  repeat split; try tauto; congruence.
Qed.

Lemma sound_joined s m :
  sound_match m -> status m = waiting ->
  sound_match (startIfReady (set_players_B (Some s) m)).1.
Proof.
  unfold sound_match, shots_by, startIfReady; simpl.
  intros (H1 & H2 & H3 & [x HA] & _ & Hw & H7) Hs.
  destruct (Hw Hs) as (_ & _ & Hk & Hd & Hr & Ht & Hsc).
  rewrite HA, Hs. simpl. rewrite HA.
  repeat split; eauto; try tauto; discriminate.
Qed.

Lemma pair_players_sound rev h sA sB w w' :
  pair_players rev h sA sB w = Done w' ->
  Forall sound_match (objs w) -> Forall sound_match (objs w').
Proof.
  unfold pair_players, createMatch. intros Hp Hw.
  assert (Hnew : forall id,
    sound_match
      (set_status playing (set_players_B (Some sB) (set_players_A (Some sA)
         {| match_id := id; status := waiting; match_type := public;
            code := None; players_A := None; players_B := None;
            spectators := []; round := 1; maxRounds := 5;
            score_A := 0; score_B := 0; turn := A;
            pending_kick := None; pending_dive := None |})))).
  { intros id. unfold sound_match, shots_by; simpl.
    repeat split; eauto; try lia; discriminate. }
  destruct rev; cbn in Hp.
  - destruct (socketsMeta w !! sA); cbn in Hp; [|discriminate].
    destruct (_ !! sB); cbn in Hp; [|discriminate].
    injection Hp as <-. cbn. rewrite list_insert_insert_eq, insert_last.
    apply Forall_app; split; [exact Hw | apply Forall_singleton, Hnew].
  - injection Hp as <-. cbn. rewrite list_insert_insert_eq, insert_last.
    apply Forall_app; split; [exact Hw | apply Forall_singleton, Hnew].
Qed.

Lemma resolve_if_ready_registry rev h a m w :
  queue (resolve_if_ready rev h a m w) = queue w /\
  socketsMeta (resolve_if_ready rev h a m w) = socketsMeta w /\
  matches (resolve_if_ready rev h a m w) = matches w.
Proof.
  unfold resolve_if_ready.
  destruct (pending_kick m), (pending_dive m); try (repeat split; reflexivity).
  destruct (resolveShot _ _ _ _ _) as [[m' out] n]. repeat split; reflexivity.
Qed.

Lemma resolve_if_ready_sound rev h a m k d w :
  sound_match m -> status m = playing ->
  Forall sound_match (objs w) ->
  Forall sound_match (objs (resolve_if_ready rev h a (set_pending k d m) w)).
Proof.
  intros Hm Hs Hw. unfold resolve_if_ready. cbn [pending_kick pending_dive set_pending].
  destruct k as [k|], d as [d|];
    try (cbn; apply Forall_insert; [exact Hw|];
         apply sound_one_pending; auto; fail).
  pose proof (sound_resolveShot rev (fun i => Math_random h (n_random w + i))
                m k d Hm Hs) as Hr.
  destruct (resolveShot _ _ _ _ _) as [[m' out] n]. cbn in *.
  apply Forall_insert; assumption.
Qed.

Lemma remove_first_short s (q : list socketId) :
  (length q <= 1)%nat ->
  (length (remove_first s q) <= 1)%nat /\ (s ∉ remove_first s q) /\
  (forall x, x ∈ remove_first s q -> x ∈ q).
Proof.
  destruct q as [|x [|y q]]; simpl; intros Hl; try lia.
  - repeat split; [lia | apply not_elem_of_nil | auto].
  - case_bool_decide as Hx; simpl.
    + repeat split; [lia | apply not_elem_of_nil | intros y Hy; inversion Hy].
    + repeat split; [lia | | auto].
      intros Hin. apply list_elem_of_singleton in Hin. congruence.
Qed.

Lemma step_ok rev h ev w w' :
  world_ok w -> step rev h ev w = Done w' -> world_ok w'.
Proof.
  intros [Hobj [Hlen Hreg]] Hstep. destruct ev as [s e].
  assert (Hget : forall a m, objs w !! a = Some m -> sound_match m)
    by (intros a m; apply (proj1 (Forall_lookup _ _) Hobj)).
  assert (Hgrow : forall meta w0,
            objs w0 = objs w -> queue w0 = queue w ->
            socketsMeta w0 = <[s := meta]> (socketsMeta w) -> world_ok w0).
  { intros meta w0 Ho Hq Hm. split; [rewrite Ho; exact Hobj|].
    split; [rewrite Hq; exact Hlen|].
    intros x Hx. rewrite Hq in Hx. rewrite Hm, lookup_insert.
    case_decide; [eauto | auto]. }
  destruct e; cbn [step] in Hstep.
  - (* connection *)
    injection Hstep as <-. eapply Hgrow; reflexivity.
  - (* hello *)
    unfold hello in Hstep. destruct rev.
    + destruct payload as [[u n]|]; [|discriminate].
      destruct (truthy u); [|discriminate].
      injection Hstep as <-. eapply Hgrow; reflexivity.
    + destruct (default _ payload) as [u n].
      destruct (negb (String.eqb _ "")); injection Hstep as <-;
        eapply Hgrow; reflexivity.
  - (* join_queue *)
    destruct (socketsMeta w !! s) as [meta|] eqn:Hmeta.
    2:{ unfold join_queue in Hstep. rewrite Hmeta in Hstep.
        injection Hstep as <-. repeat split; assumption. }
    destruct (queue w) as [|x [|y q]] eqn:Hq; [| |simpl in Hlen; lia].
    + rewrite (join_queue_first rev h s w Hq) in Hstep by eauto.
      injection Hstep as <-. split; [exact Hobj|]. split; [simpl; lia|].
      intros y Hy. cbn in Hy. apply list_elem_of_singleton in Hy as ->. eauto.
    + destruct (pair_players_spec rev h x s (with_queue [] w))
        as (w2 & m & Hp & Ho & Hq2 & _ & _ & _ & _ & _).
      { apply Hreg. apply list_elem_of_here. }
      { cbn. eauto. }
      rewrite (join_queue_second rev h s x w w2 Hq) in Hstep by eauto.
      injection Hstep as <-. split.
      * apply (pair_players_sound rev h x s _ _ Hp). exact Hobj.
      * cbn in Hq2. split; [rewrite Hq2; simpl; lia|].
        intros y Hy. rewrite Hq2 in Hy. inversion Hy.
  - (* create_private *)
    unfold create_private, createMatch in Hstep. cbn in Hstep.
    injection Hstep as <-. split.
    + cbn. rewrite insert_last. apply Forall_app; split; [exact Hobj|].
      apply Forall_singleton, sound_created_private.
    + split; [exact Hlen|]. intros x Hx. cbn. rewrite lookup_insert.
      case_decide; [eauto | auto].
  - (* join_by_code *)
    unfold join_by_code in Hstep. destruct payload as [c|]; [|discriminate].
    destruct (find_match _ _ _) as [[a m]|] eqn:F.
    2:{ injection Hstep as <-. repeat split; assumption. }
    apply find_match_lookup in F as [Hm Hp].
    apply andb_prop in Hp as [_ Hst]. apply bool_decide_eq_true in Hst.
    destruct (players_B m) eqn:HB.
    { injection Hstep as <-. repeat split; assumption. }
    pose proof (sound_joined s m (Hget a m Hm) Hst) as Hj.
    destruct (startIfReady _) as [m1 out]. injection Hstep as <-. split.
    + cbn. rewrite list_insert_insert_eq. apply Forall_insert; assumption.
    + split; [exact Hlen|]. intros x Hx. cbn. rewrite lookup_insert.
      case_decide; [eauto | auto].
  - (* spectate_join *)
    unfold spectate_join, matches_at in Hstep. destruct payload as [k|]; [|discriminate].
    destruct (get_match w k) as [[a m]|] eqn:G.
    2:{ destruct (inherited k); [discriminate|].
        injection Hstep as <-. repeat split; assumption. }
    apply get_match_lookup in G.
    destruct (bool_decide _).
    { injection Hstep as <-. repeat split; assumption. }
    injection Hstep as <-. split.
    + cbn. apply Forall_insert; [exact Hobj|].
      apply sound_set_spectators, (Hget a m G).
    + split; [exact Hlen|]. intros x Hx. cbn. rewrite lookup_insert.
      case_decide; [eauto | auto].
  - (* kick *)
    unfold kick, matches_at in Hstep. destruct payload as [[x y]|]; [|discriminate].
    destruct (socketsMeta w !! s) as [meta|];
      [|injection Hstep as <-; repeat split; assumption].
    destruct (get_match w _) as [[a m]|] eqn:G;
      [|destruct (inherited _); try discriminate; injection Hstep as <-; repeat split; assumption].
    apply get_match_lookup in G.
    destruct (bool_decide (status m = playing)) eqn:Hs; cbn [negb] in Hstep;
      [|injection Hstep as <-; repeat split; assumption].
    apply bool_decide_eq_true in Hs.
    destruct (negb _); injection Hstep as <-; [repeat split; assumption|].
    destruct (resolve_if_ready_registry rev h a
                (set_pending (Some (stored_kick h x y)) (pending_dive m) m) w)
      as (Eq & Em & _).
    split; [|split; [rewrite Eq; exact Hlen | rewrite Eq, Em; exact Hreg]].
    apply resolve_if_ready_sound; eauto.
  - (* dive *)
    unfold dive, matches_at in Hstep. destruct payload as [x|]; [|discriminate].
    destruct (socketsMeta w !! s) as [meta|];
      [|injection Hstep as <-; repeat split; assumption].
    destruct (get_match w _) as [[a m]|] eqn:G;
      [|destruct (inherited _); try discriminate; injection Hstep as <-; repeat split; assumption].
    apply get_match_lookup in G.
    destruct (bool_decide (status m = playing)) eqn:Hs; cbn [negb] in Hstep;
      [|injection Hstep as <-; repeat split; assumption].
    apply bool_decide_eq_true in Hs.
    destruct (negb _); injection Hstep as <-; [repeat split; assumption|].
    destruct (resolve_if_ready_registry rev h a
                (set_pending (pending_kick m) (Some (normalized x)) m) w)
      as (Eq & Em & _).
    split; [|split; [rewrite Eq; exact Hlen | rewrite Eq, Em; exact Hreg]].
    apply resolve_if_ready_sound; eauto.
  - (* disconnect *)
    destruct (remove_first_short s (queue w) Hlen) as (Hl' & Hnot & Hsub).
    assert (Hq' : forall w0, queue w0 = remove_first s (queue w) ->
                    socketsMeta w0 = delete s (socketsMeta w) ->
                    queue_ok w0).
    { intros w0 Eq Em. split; [rewrite Eq; exact Hl'|].
      intros x Hx. rewrite Eq in Hx. rewrite Em, lookup_delete_ne.
      - apply Hreg, Hsub, Hx.
      - intros ->. contradiction. }
    unfold disconnect, matches_at in Hstep.
    destruct (socketsMeta w !! s) as [meta|];
      [|injection Hstep as <-; split; [exact Hobj | apply Hq'; reflexivity]].
    destruct (ref_truthy _);
      [|injection Hstep as <-; split; [exact Hobj | apply Hq'; reflexivity]].
    destruct (get_match _ _) as [[a m]|] eqn:G;
      [|destruct (inherited _); [discriminate|];
        injection Hstep as <-; split; [exact Hobj | apply Hq'; reflexivity]].
    apply get_match_lookup in G. cbn in G.
    destruct (bool_decide _);
      injection Hstep as <-; (split; [|apply Hq'; reflexivity]);
      [exact Hobj|].
    cbn. apply Forall_insert; [exact Hobj|]. apply sound_finished, (Hget a m G).
Qed.

Lemma reachable_ok rev h w : reachable rev h w -> world_ok w.
Proof.
  induction 1 as [|w ev w' Hr IH Hs].
  - split; [apply Forall_nil_2 | split; [simpl; lia | intros s Hs; inversion Hs]].
  - eapply step_ok; eauto.
Qed.

Lemma watched_reachable : reachable server_js demo_host watched_world.
Proof.
  eapply run_reachable; [apply reachable_init|].
  apply done_world. vm_compute. reflexivity.
Qed.

Lemma tied_reachable : reachable server_js demo_host tied_world.
Proof.
  eapply run_reachable; [apply reachable_init|].
  apply done_world. vm_compute. reflexivity.
Qed.

Lemma watched_lookup : objs watched_world !! 0%nat = Some watched_match.
Proof. vm_compute. reflexivity. Qed.

Lemma tied_lookup : objs tied_world !! 0%nat = Some tied_match.
Proof. vm_compute. reflexivity. Qed.

(** X1.  In every reachable world a playing match has both seats taken, and
    a waiting match is a private one that holds its creator in seat A and
    nobody in seat B: a public match is never left waiting. *)
Theorem seats_follow_status rev h w a m :
  reachable rev h w -> objs w !! a = Some m ->
  is_Some (players_A m) /\
  (status m = playing -> is_Some (players_B m)) /\
  (status m = waiting -> match_type m = private /\ players_B m = None).
Proof.
  intros Hr Hm. destruct (reachable_ok rev h w Hr) as [Hobj _].
  destruct (proj1 (Forall_lookup _ _) Hobj a m Hm)
    as (_ & _ & _ & HA & HB & Hw & _).
  split; [assumption|]. split; [assumption|].
  intros Hs. destruct (Hw Hs); tauto.
Qed.

Lemma seats_follow_status_witness :
  reachable server_js demo_host watched_world /\
  objs watched_world !! 0%nat = Some watched_match /\
  is_Some (players_A watched_match) /\
  (status watched_match = playing -> is_Some (players_B watched_match)) /\
  (status watched_match = waiting ->
     match_type watched_match = private /\ players_B watched_match = None).
Proof.
  split; [apply watched_reachable|]. split; [apply watched_lookup|].
  exact (seats_follow_status server_js demo_host watched_world 0%nat
           watched_match watched_reachable watched_lookup).
Defined.

(** X2.  In every reachable world the round of a match is at least 1 and
    neither score is negative or above the number of shots that side has
    taken; the shot count [totalShots] is the sum of the two. *)
Theorem scores_within_shots rev h w a m :
  reachable rev h w -> objs w !! a = Some m ->
  1 <= round m /\
  0 <= score_A m <= shots_by A m /\ 0 <= score_B m <= shots_by B m /\
  totalShots m = shots_by A m + shots_by B m.
Proof.
  intros Hr Hm. destruct (reachable_ok rev h w Hr) as [Hobj _].
  destruct (proj1 (Forall_lookup _ _) Hobj a m Hm) as (H1 & H2 & H3 & _).
  split; [assumption|]. split; [assumption|]. split; [assumption|].
  unfold totalShots, shots_by. destruct (turn m); simpl; lia.
Qed.

Lemma scores_within_shots_witness :
  reachable server_js demo_host tied_world /\
  objs tied_world !! 0%nat = Some tied_match /\
  1 <= round tied_match /\
  0 <= score_A tied_match <= shots_by A tied_match /\
  0 <= score_B tied_match <= shots_by B tied_match /\
  totalShots tied_match = shots_by A tied_match + shots_by B tied_match.
Proof.
  split; [apply tied_reachable|]. split; [apply tied_lookup|].
  exact (scores_within_shots server_js demo_host tied_world 0%nat
           tied_match tied_reachable tied_lookup).
Defined.

(** X3.  Between two events a match never holds both a pending kick and a
    pending dive (the second to arrive is resolved at once), and a waiting
    match holds neither. *)
Theorem pending_actions_at_rest rev h w a m :
  reachable rev h w -> objs w !! a = Some m ->
  (pending_kick m = None \/ pending_dive m = None) /\
  (status m = waiting -> pending_kick m = None /\ pending_dive m = None).
Proof.
  intros Hr Hm. destruct (reachable_ok rev h w Hr) as [Hobj _].
  destruct (proj1 (Forall_lookup _ _) Hobj a m Hm)
    as (_ & _ & _ & _ & _ & Hw & Hp).
  split; [assumption|]. intros Hs. destruct (Hw Hs); tauto.
Qed.

Lemma pending_actions_at_rest_witness :
  reachable server_js demo_host watched_world /\
  objs watched_world !! 0%nat = Some watched_match /\
  (pending_kick watched_match = None \/ pending_dive watched_match = None) /\
  (status watched_match = waiting ->
     pending_kick watched_match = None /\ pending_dive watched_match = None).
Proof.
  split; [apply watched_reachable|]. split; [apply watched_lookup|].
  exact (pending_actions_at_rest server_js demo_host watched_world 0%nat
           watched_match watched_reachable watched_lookup).
Defined.

(** X4.  Between two events the matchmaking queue holds at most one socket,
    and that socket is registered in [socketsMeta]. *)
Theorem queue_holds_at_most_one rev h w :
  reachable rev h w ->
  (length (queue w) <= 1)%nat /\
  forall s, s ∈ queue w -> is_Some (socketsMeta w !! s).
Proof. intros Hr. exact (proj2 (reachable_ok rev h w Hr)). Qed.

Lemma queue_holds_at_most_one_witness :
  reachable server_js demo_host tied_world /\
  (length (queue tied_world) <= 1)%nat /\
  forall s, s ∈ queue tied_world -> is_Some (socketsMeta tied_world !! s).
Proof.
  split; [apply tied_reachable|].
  exact (queue_holds_at_most_one server_js demo_host tied_world tied_reachable).
Defined.

(** ** What a handler may do to the matches it finds *)

Section HeapRel.
Variable R : Match -> Match -> Prop.
Hypothesis R_refl : forall m, R m m.
Hypothesis R_trans : forall m1 m2 m3, R m1 m2 -> R m2 m3 -> R m1 m3.

Lemma heap_rel_refl os : heap_rel R os os.
Proof. intros a m Hm. eauto. Qed.

Lemma heap_rel_trans os1 os2 os3 :
  heap_rel R os1 os2 -> heap_rel R os2 os3 -> heap_rel R os1 os3.
Proof.
  intros H1 H2 a m Hm.
  destruct (H1 a m Hm) as (m2 & Hm2 & R12).
  destruct (H2 a m2 Hm2) as (m3 & Hm3 & R23). eauto.
Qed.

Lemma heap_rel_insert os a m m' :
  os !! a = Some m -> R m m' -> heap_rel R os (<[a := m']> os).
Proof.
  intros Hm Hr b x Hx. destruct (decide (a = b)) as [->|Hne].
  - exists m'. split; [|congruence].
    apply list_lookup_insert_eq. eapply lookup_lt_Some; eauto.
  - exists x. rewrite list_lookup_insert_ne by assumption. auto.
Qed.

Lemma heap_rel_app os new : heap_rel R os (os ++ new).
Proof.
  intros a m Hm. exists m. split; [|apply R_refl].
  rewrite lookup_app_l; [assumption | eapply lookup_lt_Some; eauto].
Qed.

Hypothesis R_join : forall m s,
  status m = waiting -> R m (startIfReady (set_players_B (Some s) m)).1.
Hypothesis R_spectators : forall m v,
  status m <> finished -> R m (set_spectators v m).
Hypothesis R_disconnect : forall m,
  status m <> finished -> R m (set_status finished m).

(* [shots] tells whether [kick] and [dive] are among the events. *)
Variable shots : bool.
Hypothesis R_pending : shots = true -> forall m k d,
  status m = playing -> R m (set_pending k d m).
Hypothesis R_resolve : shots = true -> forall rev rnd m k d,
  status m = playing -> R m (resolveShot rev rnd m k d).1.1.

Lemma resolve_if_ready_rel rev h a m0 m w :
  shots = true ->
  objs w !! a = Some m0 -> status m = playing -> R m0 m ->
  heap_rel R (objs w) (objs (resolve_if_ready rev h a m w)).
Proof.
  intros He Hm Hs Hr. unfold resolve_if_ready.
  destruct (pending_kick m) as [k|], (pending_dive m) as [d|];
    try (cbn; eapply heap_rel_insert; eauto).
  pose proof (R_resolve He rev (fun i => Math_random h (n_random w + i))
                m k d Hs) as Hres.
  destruct (resolveShot _ _ _ _ _) as [[m' out] n]. cbn in *.
  eapply heap_rel_insert; eauto.
Qed.

Lemma pairing_rel rev h q w :
  heap_rel R (objs w) (objs (world_of (pairing rev h q w))).
Proof.
  revert w. induction q as [q IH] using (induction_ltof1 _ (@length _)).
  unfold ltof in IH. intros w.
  destruct q as [|sA [|sB rest]]; simpl; try apply heap_rel_refl.
  assert (Hp : heap_rel R (objs w)
            (objs (world_of (pair_players rev h sA sB (with_queue rest w))))).
  { unfold pair_players, createMatch. destruct rev; cbn.
    1: destruct (socketsMeta w !! sA); cbn.
    1: destruct (_ !! sB); cbn.
    all: rewrite ?insert_last; apply heap_rel_app. }
  destruct (pair_players rev h sA sB (with_queue rest w)) as [w'|w'];
    simpl in Hp; [|exact Hp].
  eapply heap_rel_trans; [exact Hp|]. apply IH. simpl. lia.
Qed.

Lemma step_heap_rel rev h s e w :
  (is_shot_event e = true -> shots = true) ->
  heap_rel R (objs w) (objs (world_of (step rev h (s, e) w))).
Proof.
  intros He. destruct e; cbn [step]; cbn in He.
  - apply heap_rel_refl.
  - rewrite hello_objs. apply heap_rel_refl.
  - unfold join_queue. destruct (socketsMeta w !! s); [|apply heap_rel_refl].
    apply (pairing_rel rev h _ (with_queue (queue w ++ [s]) w)).
  - unfold create_private, createMatch. cbn. rewrite insert_last.
    apply heap_rel_app.
  - unfold join_by_code. destruct payload as [c|]; [|apply heap_rel_refl].
    destruct (find_match _ _ _) as [[a m]|] eqn:F; [|apply heap_rel_refl].
    apply find_match_lookup in F as [Hm Hp].
    apply andb_prop in Hp as [_ Hst]. apply bool_decide_eq_true in Hst.
    destruct (players_B m) eqn:HB; [apply heap_rel_refl|].
    pose proof (R_join m s Hst) as Hj.
    destruct (startIfReady _) as [m1 out]. cbn in *.
    rewrite list_insert_insert_eq. eapply heap_rel_insert; eauto.
  - unfold spectate_join, matches_at. destruct payload as [k|]; [|apply heap_rel_refl].
    destruct (get_match w k) as [[a m]|] eqn:G; [|destruct (inherited _); try discriminate; apply heap_rel_refl].
    apply get_match_lookup in G.
    case_bool_decide as Hf; [apply heap_rel_refl|]. cbn.
    eapply heap_rel_insert; eauto.
  - unfold kick, matches_at. destruct payload as [[x y]|]; [|apply heap_rel_refl].
    destruct (socketsMeta w !! s) as [meta|]; [|apply heap_rel_refl].
    destruct (get_match w _) as [[a m]|] eqn:G; [|destruct (inherited _); try discriminate; apply heap_rel_refl].
    apply get_match_lookup in G.
    case_bool_decide as Hs; cbn [negb]; [|apply heap_rel_refl].
    destruct (negb _); [apply heap_rel_refl|]. cbn [world_of].
    eapply resolve_if_ready_rel; eauto.
  - unfold dive, matches_at. destruct payload as [x|]; [|apply heap_rel_refl].
    destruct (socketsMeta w !! s) as [meta|]; [|apply heap_rel_refl].
    destruct (get_match w _) as [[a m]|] eqn:G; [|destruct (inherited _); try discriminate; apply heap_rel_refl].
    apply get_match_lookup in G.
    case_bool_decide as Hs; cbn [negb]; [|apply heap_rel_refl].
    destruct (negb _); [apply heap_rel_refl|]. cbn [world_of].
    eapply resolve_if_ready_rel; eauto.
  - unfold disconnect, matches_at.
    destruct (socketsMeta w !! s) as [meta|]; [|apply heap_rel_refl].
    destruct (ref_truthy _); [|apply heap_rel_refl].
    destruct (get_match _ _) as [[a m]|] eqn:G; [|destruct (inherited _); try discriminate; apply heap_rel_refl].
    apply get_match_lookup in G. cbn in G.
    case_bool_decide as Hf; [apply heap_rel_refl|]. cbn.
    eapply heap_rel_insert; eauto.
Qed.
End HeapRel.

Lemma frozen_refl m : frozen m m.
Proof. intros _. reflexivity. Qed.

Lemma frozen_trans m1 m2 m3 : frozen m1 m2 -> frozen m2 m3 -> frozen m1 m3.
Proof. unfold frozen. intros H1 H2 Hf. rewrite <- (H1 Hf). apply H2. rewrite (H1 Hf). exact Hf. Qed.

Lemma step_frozen rev h ev w :
  heap_rel frozen (objs w) (objs (world_of (step rev h ev w))).
Proof.
  destruct ev as [s e].
  apply (step_heap_rel frozen frozen_refl frozen_trans) with (shots := true);
    unfold frozen; auto; intros; congruence.
Qed.

(** X6.  A finished match is never touched again: whatever events follow,
    in either revision, the object stays exactly as it was when it
    finished. *)
Theorem finished_match_is_frozen rev h evs w a m :
  objs w !! a = Some m -> status m = finished ->
  objs (world_of (run rev h evs w)) !! a = Some m.
Proof.
  revert w. induction evs as [|ev evs IH]; intros w Hm Hf; cbn [run].
  - exact Hm.
  - destruct (step_frozen rev h ev w a m Hm) as (m' & Hm' & Hfr).
    rewrite (Hfr Hf) in Hm'.
    destruct (step rev h ev w) as [w'|w']; cbn [world_of] in *; auto.
Qed.

Lemma finished_match_is_frozen_witness :
  objs ended_world !! 0%nat = Some (set_status finished watched_match) /\
  objs (world_of (run server_js demo_host late_events ended_world)) !! 0%nat
    = Some (set_status finished watched_match).
Proof.
  assert (Hm : objs ended_world !! 0%nat
               = Some (set_status finished watched_match))
    by (vm_compute; reflexivity).
  split; [exact Hm|].
  exact (finished_match_is_frozen server_js demo_host late_events ended_world
           0%nat (set_status finished watched_match) Hm eq_refl).
Defined.

Lemma same_play_refl m : same_play m m.
Proof. unfold same_play. tauto. Qed.

Lemma same_play_trans m1 m2 m3 :
  same_play m1 m2 -> same_play m2 m3 -> same_play m1 m3.
Proof. unfold same_play. intuition congruence. Qed.

Lemma step_same_play rev h s e w :
  is_shot_event e = false ->
  heap_rel same_play (objs w) (objs (world_of (step rev h (s, e) w))).
Proof.
  intros He.
  apply (step_heap_rel same_play same_play_refl same_play_trans)
    with (shots := false); try discriminate; try congruence.
  - intros m s0 Hs. unfold startIfReady. cbn.
    destruct (players_A m); rewrite ?Hs; cbn; unfold same_play; tauto.
  - intros m v _. unfold same_play. cbn. tauto.
  - intros m _. unfold same_play. cbn. tauto.
Qed.

(** X7.  Only [kick] and [dive] change the play of a match: along a run of
    events of the other kinds (connections, hellos, queueing, private
    matches, joins, spectators, disconnections) the score, the round, the
    turn and the pending actions of every match stay as they were. *)
Theorem only_shots_change_the_play rev h evs w a m :
  Forall (fun ev => is_shot_event ev.2 = false) evs ->
  objs w !! a = Some m ->
  exists m',
    objs (world_of (run rev h evs w)) !! a = Some m' /\
    score m' = score m /\ round m' = round m /\ turn m' = turn m /\
    pending_kick m' = pending_kick m /\ pending_dive m' = pending_dive m.
Proof.
  intros Hevs. revert w m.
  induction Hevs as [|[s e] evs He _ IH]; intros w m Hm; cbn [run].
  - exists m. repeat split; auto.
  - destruct (step_same_play rev h s e w He a m Hm) as (m1 & Hm1 & S1).
    destruct (step rev h (s, e) w) as [w'|w']; cbn [world_of] in *.
    + destruct (IH w' m1 Hm1) as (m2 & Hm2 & S2).
      exists m2. split; [assumption|]. exact (same_play_trans _ _ _ S1 S2).
    + exists m1. split; [assumption|]. exact S1.
Qed.

Lemma only_shots_change_the_play_witness :
  objs watched_world !! 0%nat = Some watched_match /\
  exists m',
    objs (world_of (run server_js demo_host quiet_events watched_world)) !! 0%nat
      = Some m' /\
    score m' = score watched_match /\ round m' = round watched_match /\
    turn m' = turn watched_match /\
    pending_kick m' = pending_kick watched_match /\
    pending_dive m' = pending_dive watched_match.
Proof.
  split; [apply watched_lookup|].
  apply (only_shots_change_the_play server_js demo_host quiet_events
           watched_world 0%nat watched_match); [|apply watched_lookup].
  repeat constructor.
Defined.

(** ** One resolved shot *)

(** X8.  A resolved shot adds exactly one to the shooter's score when it is
    a goal and leaves both scores alone when it is a save or a miss; in
    every case it clears both pending actions, hands the turn to the other
    slot and starts a new round exactly when the shooter was B. *)
Theorem shot_bookkeeping rev rnd m kick dive :
  let m' := (resolveShot rev rnd m kick dive).1.1 in
  let res := (shot_outcome rev rnd kick dive).1.1 in
  score m' =
    match res, turn m with
    | goal, A => (score_A m + 1, score_B m)
    | goal, B => (score_A m, score_B m + 1)
    | _, _ => score m
    end /\
  pending_kick m' = None /\ pending_dive m' = None /\
  turn m' = other (turn m) /\
  round m' = match turn m with A => round m | B => round m + 1 end.
Proof.
  shot_cases rev rnd m kick dive.
  all: rewrite ?Ht; simpl; repeat split; reflexivity.
Qed.

(** X9.  The outcome of a shot goes to seat A, to seat B and to every
    spectator in the same words: the result, the zone, the score after the
    shot, the round of the shot and the slot that kicks next. *)
Theorem shot_result_reaches_everyone rev rnd m kick dive :
  let m' := (resolveShot rev rnd m kick dive).1.1 in
  let out := (resolveShot rev rnd m kick dive).1.2 in
  let shot :=
    shot_result (shot_outcome rev rnd kick dive).1.1
      (shot_outcome rev rnd kick dive).1.2
      (score m') (round m) (other (turn m)) in
  In (players_A m, shot) out /\ In (players_B m, shot) out /\
  (forall s, In s (spectators m) -> In (Some s, shot) out).
Proof.
  shot_cases rev rnd m kick dive.
  all: rewrite ?Ht; simpl; unfold score; simpl.
  all: repeat split;
       [ left; reflexivity
       | right; left; reflexivity
       | intros s Hs; do 2 right; apply in_or_app; left;
         unfold to_spectators; simpl;
         apply (in_map (fun s => (Some s, _)) _ _ Hs) ].
Qed.

Lemma to_spectators_Forall (P : Emit -> Prop) m e :
  (forall s, P (Some s, e)) -> Forall P (to_spectators m e).
Proof.
  intros HP. unfold to_spectators. apply Forall_forall. intros x Hx.
  apply list_elem_of_In, in_map_iff in Hx as (s & <- & _). apply HP.
Qed.

(** X10.  A shot that finishes the match announces no further turn, and a
    shot that does not tells the next kicker and the next keeper their
    roles with the new round and score. *)
Theorem turn_announced_unless_over rev rnd m kick dive :
  let m' := (resolveShot rev rnd m kick dive).1.1 in
  let out := (resolveShot rev rnd m kick dive).1.2 in
  status m = playing ->
  (status m' = finished -> Forall (fun e => not (announces_turn e)) out) /\
  (status m' = playing ->
     In (players m' (turn m'),
         your_turn kicker (round m') (turn m') (score m')) out /\
     In (players m' (other (turn m')),
         your_turn keeper (round m') (other (turn m')) (score m')) out).
Proof.
  shot_cases rev rnd m kick dive.
  all: rewrite ?Ht; simpl; intros Hs; rewrite ?Hs; split; intros Hf;
       try discriminate.
  all: try (split; do 2 right; apply in_or_app; right; simpl; auto; fail).
  all: repeat (apply List.Forall_cons; [intros []|]).
  all: apply Forall_app; split;
       [apply to_spectators_Forall; intros s []|].
  all: repeat (apply List.Forall_cons; [intros []|]).
  all: apply to_spectators_Forall; intros s [].
Qed.

Lemma turn_announced_unless_over_witness :
  status tied_match = playing /\
  status (resolveShot server_js (shot_rnd (straight_shot z_left)) tied_match
            (shot_kick (straight_shot z_left)) z_left).1.1 = finished /\
  Forall (fun e => not (announces_turn e))
    (resolveShot server_js (shot_rnd (straight_shot z_left)) tied_match
       (shot_kick (straight_shot z_left)) z_left).1.2.
Proof.
  split; [reflexivity|].
  assert (Hf : status (resolveShot server_js (shot_rnd (straight_shot z_left))
                 tied_match (shot_kick (straight_shot z_left)) z_left).1.1
               = finished) by (vm_compute; reflexivity).
  split; [exact Hf|].
  exact (proj1 (turn_announced_unless_over server_js
                  (shot_rnd (straight_shot z_left)) tied_match
                  (shot_kick (straight_shot z_left)) z_left eq_refl) Hf).
Defined.

(** X11.  In sudden death, when B's shot closes the pair: if the scores
    differ the match is finished and the higher scorer is announced as the
    winner to both players; if they are level the match goes on, with A to
    kick in the next round. *)
Theorem sudden_death_pair_closed rev rnd m kick dive :
  let m' := (resolveShot rev rnd m kick dive).1.1 in
  let out := (resolveShot rev rnd m kick dive).1.2 in
  let over :=
    match_over (winner_slot (if score_A m' >? score_B m' then A else B))
      (score m') None in
  status m = playing -> maxRounds m < round m -> turn m = B ->
  (score_A m' <> score_B m' ->
     status m' = finished /\
     In (players_A m', over) out /\ In (players_B m', over) out) /\
  (score_A m' = score_B m' ->
     status m' = playing /\ round m' = round m + 1 /\ turn m' = A).
Proof.
  intros m' out over Hs Hr Ht.
  destruct (resolveShot_fields rev rnd m kick dive) as (Hts & Hmax & Hturn & _).
  fold m' in Hts, Hmax, Hturn. rewrite Ht in Hturn. simpl in Hturn.
  assert (Hround : round m' = round m + 1).
  { unfold totalShots in Hts. rewrite Ht, Hturn in Hts. simpl in Hts. lia. }
  assert (Hlate : maxRounds m * 2 <= totalShots m').
  { rewrite Hts. unfold totalShots. rewrite Ht. simpl. lia. }
  split.
  - intros Hd. split; [apply resolveShot_finishes; assumption|].
    destruct (resolveShot_winner rev rnd m kick dive Hlate Hd) as (WA & WB & _).
    split; assumption.
  - intros He. split; [|split; assumption].
    unfold m'. rewrite resolveShot_continues; [assumption | right; assumption].
Qed.

Lemma sudden_death_pair_closed_witness :
  status closing_match = playing /\
  maxRounds closing_match < round closing_match /\ turn closing_match = B /\
  status (resolveShot server_js (shot_rnd (straight_shot z_left)) closing_match
            (shot_kick (straight_shot z_left)) z_left).1.1 = finished.
Proof.
  split; [reflexivity|]. split; [reflexivity|]. split; [reflexivity|].
  destruct (sudden_death_pair_closed server_js
              (shot_rnd (straight_shot z_left)) closing_match
              (shot_kick (straight_shot z_left)) z_left
              eq_refl eq_refl eq_refl) as [Hd _].
  apply Hd. vm_compute. discriminate.
Defined.

(** ** The probabilistic model *)

(** X12.  A shot is saved only when the keeper dived to the zone the ball
    went to; with any other dive it is a goal or a miss. *)
Theorem save_needs_the_right_dive rev rnd kick dive :
  (shot_outcome rev rnd kick dive).1.1 = save ->
  dive = (shot_outcome rev rnd kick dive).1.2.
Proof.
  unfold shot_outcome.
  destruct (num_lt (Fin (rnd 1%nat)) _); [discriminate|].
  destruct (decide (dive = _)) as [E|E]; [|discriminate].
  destruct (num_lt (Fin (rnd 2%nat)) _); simpl; intros _; exact E.
Qed.

Lemma save_needs_the_right_dive_witness :
  (shot_outcome server_js (fun _ => 0.25%Q)
     {| angleDeg := Fin 0; power01 := Fin 0.5 |} z_center).1.1 = save /\
  z_center = (shot_outcome server_js (fun _ => 0.25%Q)
                {| angleDeg := Fin 0; power01 := Fin 0.5 |} z_center).1.2.
Proof.
  assert (Hs : (shot_outcome server_js (fun _ => 0.25%Q)
                  {| angleDeg := Fin 0; power01 := Fin 0.5 |} z_center).1.1
               = save) by (vm_compute; reflexivity).
  split; [exact Hs|].
  exact (save_needs_the_right_dive server_js (fun _ => 0.25%Q)
           {| angleDeg := Fin 0; power01 := Fin 0.5 |} z_center Hs).
Defined.

(** X13.  A shot whose power is at most 0.9 is never a miss: the miss
    probability is then 0 and no value of [Math.random] is below it. *)
Theorem no_miss_up_to_09 rev rnd kick dive p :
  shot_power rev kick = Fin p -> (p <= 0.9)%Q -> (0 <= rnd 1%nat)%Q ->
  (shot_outcome rev rnd kick dive).1.1 <> miss.
Proof.
  intros Hp Hle Hr. unfold shot_outcome. rewrite Hp.
  assert (Hm : num_lt (Fin (rnd 1%nat))
                 (num_mul (Math_max (Fin 0) (num_sub (Fin p) (Fin 0.9))) (Fin 2))
               = false).
  { assert (HM : exists z, Math_max (Fin 0) (num_sub (Fin p) (Fin 0.9)) = Fin z
                          /\ (z <= 0)%Q).
    { simpl.
      match goal with |- context [if ?c then _ else _] => destruct c eqn:E end.
      - exfalso. apply Qltb_lt in E. lra.
      - exists 0%Q. split; [reflexivity | lra]. }
    destruct HM as (z & -> & Hz). simpl.
    apply Bool.negb_false_iff, Qle_bool_iff. lra. }
  rewrite Hm.
  destruct (decide _); [destruct (num_lt (Fin (rnd 2%nat)) _)|];
    cbn [fst]; discriminate.
Qed.

Lemma no_miss_up_to_09_witness :
  shot_power server_js {| angleDeg := Fin 0; power01 := Fin 0.5 |} = Fin 0.5 /\
  (0.5 <= 0.9)%Q /\ (0 <= 0.25)%Q /\
  (shot_outcome server_js (fun _ => 0.25%Q)
     {| angleDeg := Fin 0; power01 := Fin 0.5 |} z_center).1.1 <> miss.
Proof.
  assert (H1 : shot_power server_js {| angleDeg := Fin 0; power01 := Fin 0.5 |}
               = Fin 0.5) by reflexivity.
  assert (H2 : (0.5 <= 0.9)%Q) by (vm_compute; discriminate).
  assert (H3 : (0 <= 0.25)%Q) by (vm_compute; discriminate).
  split; [exact H1|]. split; [exact H2|]. split; [exact H3|].
  exact (no_miss_up_to_09 server_js (fun _ => 0.25%Q)
           {| angleDeg := Fin 0; power01 := Fin 0.5 |} z_center 0.5 H1 H2 H3).
Defined.

(** X14.  With a power in [0, 1] the ball strays from the aimed angle by at
    most 7.2 degrees: it goes left only when aimed below -7.8, right only
    when aimed above 7.8, so a shot aimed within 7.8 degrees of the middle
    always lands in the centre. *)
Theorem zone_follows_the_aim rev rnd kick dive a p :
  shot_angle rev kick = Fin a -> shot_power rev kick = Fin p ->
  (0 <= p /\ p <= 1)%Q -> (0 <= rnd 0%nat /\ rnd 0%nat < 1)%Q ->
  let zone := (shot_outcome rev rnd kick dive).1.2 in
  (zone = z_left -> (a < -7.8)%Q) /\ (zone = z_right -> (7.8 < a)%Q) /\
  ((-7.8 <= a /\ a <= 7.8)%Q -> zone = z_center).
Proof.
  intros Ha Hp [Hp0 Hp1] [Hr0 Hr1].
  set (act := (a + (rnd 0%nat * 2 + - 1) * (6 * (0.2 + p)))%Q).
  assert (Hact : (a - 7.2 <= act /\ act <= a + 7.2)%Q) by (unfold act; nra).
  assert (Hz : (shot_outcome rev rnd kick dive).1.2
               = if Qltb act (-15) then z_left
                 else if Qltb 15 act then z_right else z_center).
  { unfold shot_outcome. rewrite Ha, Hp.
    destruct (num_lt (Fin (rnd 1%nat)) _); [reflexivity|].
    destruct (decide _); [|reflexivity].
    destruct (num_lt (Fin (rnd 2%nat)) _); reflexivity. }
  cbn zeta. rewrite Hz.
  destruct (Qltb act (-15)) eqn:E1; [apply Qltb_lt in E1 | apply Qltb_ge in E1];
    [|destruct (Qltb 15 act) eqn:E2;
      [apply Qltb_lt in E2 | apply Qltb_ge in E2]].
  - split; [intros _; lra|]. split; [discriminate|]. intros [? ?]. lra.
  - split; [discriminate|]. split; [intros _; lra|]. intros [? ?]. lra.
  - split; [discriminate|]. split; [discriminate|]. reflexivity.
Qed.

Lemma zone_follows_the_aim_witness :
  shot_angle server_js {| angleDeg := Fin 0; power01 := Fin 0.5 |} = Fin 0 /\
  shot_power server_js {| angleDeg := Fin 0; power01 := Fin 0.5 |} = Fin 0.5 /\
  (shot_outcome server_js (fun _ => 0.25%Q)
     {| angleDeg := Fin 0; power01 := Fin 0.5 |} z_left).1.2 = z_center.
Proof.
  split; [reflexivity|]. split; [reflexivity|].
  apply (zone_follows_the_aim server_js (fun _ => 0.25%Q)
           {| angleDeg := Fin 0; power01 := Fin 0.5 |} z_left 0 0.5
           eq_refl eq_refl).
  - split; vm_compute; discriminate.
  - split; [vm_compute; discriminate | reflexivity].
  - split; vm_compute; discriminate.
Defined.

(** ** Kicks and dives *)

(** X15.  A kick from a socket that is not the kicker of a playing match,
    and a dive from one that is not its keeper, change nothing at all: no
    pending action, no score, no turn, no event. *)
Theorem unauthorized_actions_are_ignored rev h s w :
  (forall p, (forall a m, not (acts_as w s kicker a m)) ->
             kick rev h s (Some p) w = Done w) /\
  (forall d, (forall a m, not (acts_as w s keeper a m)) ->
             dive rev h s (Some d) w = Done w).
Proof.
  split.
  - intros [x y] Hno. unfold kick, matches_at.
    destruct (socketsMeta w !! s) as [meta|] eqn:Hmeta; [|reflexivity].
    destruct (get_match w _) as [[a m]|] eqn:G; [|destruct (inherited _); try discriminate; reflexivity].
    case_bool_decide as Hs; cbn [negb]; [|reflexivity].
    case_bool_decide as Hk; cbn [negb]; [|reflexivity].
    exfalso. apply (Hno a m). exists meta. auto.
  - intros d Hno. unfold dive, matches_at.
    destruct (socketsMeta w !! s) as [meta|] eqn:Hmeta; [|reflexivity].
    destruct (get_match w _) as [[a m]|] eqn:G; [|destruct (inherited _); try discriminate; reflexivity].
    case_bool_decide as Hs; cbn [negb]; [|reflexivity].
    case_bool_decide as Hk; cbn [negb]; [|reflexivity].
    exfalso. apply (Hno a m). exists meta. auto.
Qed.

Lemma unauthorized_actions_are_ignored_witness :
  kick server_js demo_host 2%nat (Some (VNumber (Fin 0), VNumber (Fin 1)))
    watched_world = Done watched_world.
Proof.
  apply (proj1 (unauthorized_actions_are_ignored server_js demo_host 2%nat
                  watched_world)).
  intros a m (meta & Hmeta & Hget & _ & Hk).
  vm_compute in Hmeta. injection Hmeta as <-.
  vm_compute in Hget. injection Hget as <- <-.
  vm_compute in Hk. discriminate.
Defined.









(** ** Spectators *)

Lemma set_add_spec s (l : list socketId) :
  s ∈ set_add s l /\ (forall x, x ∈ l -> x ∈ set_add s l) /\
  (s ∈ l -> set_add s l = l) /\ (NoDup l -> NoDup (set_add s l)).
Proof.
  unfold set_add. case_bool_decide as Hin.
  - repeat split; auto.
  - split; [apply elem_of_app; right; apply list_elem_of_here|].
    split; [intros x Hx; apply elem_of_app; auto|].
    split; [contradiction|].
    intros Hnd. apply NoDup_app. split; [assumption|].
    split; [|apply NoDup_singleton].
    intros x Hx Hx'. apply list_elem_of_singleton in Hx' as ->. contradiction.
Qed.

(** X17.  Watching a match that is not finished puts the socket in its
    spectator set (once: a second [spectate_join] adds nothing), touches no
    other field of the match, points the socket's meta at the match with
    the role [spec] and sends the socket the current score, round and
    turn. *)
Theorem spectate_join_attaches s k w a m :
  get_match w k = Some (a, m) -> status m <> finished ->
  exists w' meta,
    spectate_join s (Some k) w = Done w' /\
    objs w' !! a = Some (set_spectators (set_add s (spectators m)) m) /\
    s ∈ set_add s (spectators m) /\
    (s ∈ spectators m -> set_add s (spectators m) = spectators m) /\
    (NoDup (spectators m) -> NoDup (set_add s (spectators m))) /\
    socketsMeta w' !! s = Some meta /\
    matchId meta = ref_key k /\ role meta = Some role_spec /\
    emitted w' = emitted w
      ++ [(Some s, score_update (score m) (round m) (turn m))].
Proof.
  intros Hget Hs. unfold spectate_join, matches_at. rewrite Hget.
  rewrite (bool_decide_eq_false_2 _ Hs).
  destruct (set_add_spec s (spectators m)) as (H1 & _ & H3 & H4).
  eexists. eexists. split; [reflexivity|]. cbn.
  split.
  { apply list_lookup_insert_eq. apply get_match_lookup in Hget.
    eapply lookup_lt_Some; eauto. }
  split; [exact H1|]. split; [exact H3|]. split; [exact H4|].
  split; [apply lookup_insert_eq|]. repeat split; reflexivity.
Qed.

Lemma spectate_join_attaches_witness :
  get_match watched_world "3f9a1c07" = Some (0%nat, watched_match) /\
  exists w',
    spectate_join 3%nat (Some "3f9a1c07") watched_world = Done w' /\
    objs w' !! 0%nat = Some watched_match.
Proof.
  assert (Hg : get_match watched_world "3f9a1c07" = Some (0%nat, watched_match))
    by (vm_compute; reflexivity).
  split; [exact Hg|].
  destruct (spectate_join_attaches 3%nat "3f9a1c07" watched_world 0%nat
              watched_match Hg) as (w' & meta & Hw' & Ho & _).
  - discriminate.
  - exists w'. split; [exact Hw'|]. exact Ho.
Defined.

(** X18.  Asking to watch a match that is finished, or under a key that
    [matches] neither has nor inherits, gets the [error_msg] of an
    unavailable match and changes nothing else: no spectator is added and
    the socket's meta keeps its match and role.  Under a key that is not
    stored and names a member of [Object.prototype] ([constructor],
    [toString], [__proto__], ...) the handler is aborted by a TypeError,
    nothing emitted and nothing changed. *)
Theorem spectate_join_refused s k w :
  (match get_match w k with
   | Some (_, m) => status m = finished
   | None => inherited k = false
   end ->
   exists w', spectate_join s (Some k) w = Done w' /\
              only_reports s (error_msg "Partido no disponible") w w') /\
  (obj_get k (matches w) = None -> inherited k = true ->
   spectate_join s (Some k) w = Thrown w).
Proof.
  unfold spectate_join, matches_at. split.
  - intros Hno. destruct (get_match w k) as [[a m]|].
    + rewrite (bool_decide_eq_true_2 _ Hno).
      eexists. split; [reflexivity|]. repeat split; reflexivity.
    + rewrite Hno. eexists. split; [reflexivity|]. repeat split; reflexivity.
  - intros Hnone Hin. unfold get_match. rewrite Hnone, Hin. reflexivity.
Qed.

Lemma spectate_join_refused_witness :
  (exists w',
     spectate_join 4%nat (Some "3f9a1c07") ended_world = Done w' /\
     only_reports 4%nat (error_msg "Partido no disponible") ended_world w') /\
  (exists w',
     spectate_join 4%nat (Some "b41e88d2") ended_world = Done w' /\
     only_reports 4%nat (error_msg "Partido no disponible") ended_world w') /\
  spectate_join 4%nat (Some "constructor") ended_world = Thrown ended_world /\
  spectate_join 4%nat (Some "__proto__") ended_world = Thrown ended_world.
Proof.
  split; [|split; [|split]].
  - apply (proj1 (spectate_join_refused 4%nat "3f9a1c07" ended_world)).
    vm_compute. reflexivity.
  - apply (proj1 (spectate_join_refused 4%nat "b41e88d2" ended_world)).
    vm_compute. reflexivity.
  - apply (proj2 (spectate_join_refused 4%nat "constructor" ended_world));
      vm_compute; reflexivity.
  - apply (proj2 (spectate_join_refused 4%nat "__proto__" ended_world));
      vm_compute; reflexivity.
Defined.

(** ** The store *)

Lemma obj_get_replace {V : Type} k (v : V) o :
  is_Some (obj_get k o) -> obj_get k (obj_replace k v o) = Some v.
Proof.
  induction o as [|[k' v'] o IH]; simpl; [intros [x Hx]; discriminate|].
  destruct (String.eqb_spec k' k) as [->|Hne]; simpl.
  - intros _. rewrite String.eqb_refl. reflexivity.
  - intros H. destruct (String.eqb_spec k' k); [contradiction|]. auto.
Qed.

Lemma obj_get_replace_ne {V : Type} k k0 (v : V) o :
  k0 <> k -> obj_get k0 (obj_replace k v o) = obj_get k0 o.
Proof.
  intros Hne. induction o as [|[k' v'] o IH]; simpl; [reflexivity|].
  destruct (String.eqb_spec k' k) as [->|Hk]; simpl.
  - destruct (String.eqb_spec k k0); [congruence|reflexivity].
  - destruct (String.eqb_spec k' k0); [reflexivity | exact IH].
Qed.

Lemma obj_get_insert_index {V : Type} n k (v : V) o :
  obj_get k o = None -> obj_get k (obj_insert_index n k v o) = Some v.
Proof.
  induction o as [|[k' v'] o IH]; simpl.
  - intros _. rewrite String.eqb_refl. reflexivity.
  - destruct (String.eqb_spec k' k) as [->|Hne]; [discriminate|]. intros Hn.
    destruct (array_index k') as [n'|]; [destruct (n' <? n)%N|]; simpl;
      rewrite ?String.eqb_refl; try reflexivity.
    destruct (String.eqb_spec k' k); [contradiction | auto].
Qed.

Lemma obj_get_insert_index_ne {V : Type} n k k0 (v : V) o :
  k0 <> k -> obj_get k0 (obj_insert_index n k v o) = obj_get k0 o.
Proof.
  intros Hne. induction o as [|[k' v'] o IH]; simpl.
  - destruct (String.eqb_spec k k0); [congruence | reflexivity].
  - destruct (array_index k') as [n'|]; [destruct (n' <? n)%N|]; simpl.
    + destruct (String.eqb_spec k' k0); [reflexivity | exact IH].
    + destruct (String.eqb_spec k k0); [congruence | reflexivity].
    + destruct (String.eqb_spec k k0); [congruence | reflexivity].
Qed.

Lemma obj_get_app {V : Type} k k0 (v : V) o :
  obj_get k0 (o ++ [(k, v)])
  = match obj_get k0 o with
    | Some x => Some x
    | None => if String.eqb k k0 then Some v else None
    end.
Proof.
  induction o as [|[k' v'] o IH]; simpl; [reflexivity|].
  destruct (String.eqb k' k0); [reflexivity | exact IH].
Qed.

Lemma obj_get_set {V : Type} k k0 (v : V) o :
  obj_get k0 (obj_set k v o) = if String.eqb k k0 then Some v else obj_get k0 o.
Proof.
  unfold obj_set. destruct (String.eqb_spec k k0) as [<-|Hne].
  - destruct (obj_get k o) as [x|] eqn:E.
    + apply obj_get_replace. rewrite E. eauto.
    + destruct (array_index k).
      * apply obj_get_insert_index, E.
      * rewrite obj_get_app, E, String.eqb_refl. reflexivity.
  - destruct (obj_get k o) as [x|] eqn:E.
    + apply obj_get_replace_ne. congruence.
    + destruct (array_index k).
      * apply obj_get_insert_index_ne. congruence.
      * rewrite obj_get_app.
        destruct (obj_get k0 o); [reflexivity|].
        destruct (String.eqb_spec k k0); [contradiction | reflexivity].
Qed.

(** X19.  [createMatch] allocates one new object, registers it under its id
    (so that [matches[id]] is the new match, also when the id was taken:
    the older match is then no longer reachable by key) and leaves every
    other key and every existing object as they were.  The new match is
    waiting in round 1 at 0-0 with A to kick, no player, no spectator. *)
Theorem createMatch_registers h type w :
  let a := (createMatch h type w).1.1 in
  let m := (createMatch h type w).1.2 in
  let w' := (createMatch h type w).2 in
  a = length (objs w) /\ objs w' = objs w ++ [m] /\
  match_id m = fresh_id h (n_id w) /\ match_type m = type /\
  get_match w' (match_id m) = Some (a, m) /\
  (forall k, k <> match_id m ->
             obj_get k (matches w') = obj_get k (matches w)) /\
  status m = waiting /\ round m = 1 /\ score m = (0, 0) /\ turn m = A /\
  players_A m = None /\ players_B m = None /\ spectators m = [].
Proof.
  unfold createMatch. destruct type; cbn.
  all: split; [reflexivity|]; split; [reflexivity|].
  all: split; [reflexivity|]; split; [reflexivity|].
  all: split;
    [ unfold get_match; cbn; rewrite obj_get_set, String.eqb_refl;
      rewrite lookup_app_r by lia;
      replace (length (objs w) - length (objs w))%nat with 0%nat by lia;
      reflexivity |].
  all: split;
    [ intros k Hk; rewrite obj_get_set;
      destruct (String.eqb_spec (fresh_id h (n_id w)) k);
      [congruence | reflexivity] |].
  all: repeat split; reflexivity.
Qed.

(** X20.  [create_private] gives the caller a new waiting private match with
    the caller in seat A and seat B empty, registered under its id; the
    caller's meta points at it with role A and the caller alone is sent
    [private_created] with the id and the invite code of the match. *)
Theorem create_private_opens_a_room h s w :
  exists w' m meta,
    create_private h s w = Done w' /\
    objs w' = objs w ++ [m] /\
    get_match w' (match_id m) = Some (length (objs w), m) /\
    status m = waiting /\ match_type m = private /\
    code m = Some (inviteCode h (n_random w)) /\
    players_A m = Some s /\ players_B m = None /\
    socketsMeta w' !! s = Some meta /\
    matchId meta = ref_key (match_id m) /\ role meta = Some role_A /\
    queue w' = queue w /\
    emitted w' = emitted w
      ++ [(Some s, private_created (match_id m) (code m))].
Proof.
  unfold create_private, createMatch. cbn.
  eexists. eexists. eexists. split; [reflexivity|]. cbn.
  rewrite insert_last.
  split; [reflexivity|].
  split.
  { unfold get_match. cbn. rewrite obj_get_set, String.eqb_refl.
    rewrite insert_last.
    rewrite lookup_app_r by lia.
    replace (length (objs w) - length (objs w))%nat with 0%nat by lia.
    reflexivity. }
  repeat (split; [reflexivity|]).
  split; [apply lookup_insert_eq|]. repeat split; reflexivity.
Qed.

(** ** The keys a meta points at *)

Lemma obj_get_elem {V : Type} k (v : V) o : obj_get k o = Some v -> (k, v) ∈ o.
Proof.
  induction o as [|[k' v'] o IH]; simpl; [discriminate|].
  destruct (String.eqb_spec k' k) as [->|Hne].
  - intros [= ->]. apply list_elem_of_here.
  - intros H. apply list_elem_of_further. auto.
Qed.

Lemma elem_obj_get {V : Type} k (v : V) o : (k, v) ∈ o -> is_Some (obj_get k o).
Proof.
  induction o as [|[k' v'] o IH]; simpl; [intros H; inversion H|].
  intros H. destruct (String.eqb_spec k' k) as [->|Hne]; [eauto|].
  apply elem_of_cons in H as [E|H]; [congruence | auto].
Qed.

Lemma elem_obj_replace {V : Type} k (v : V) o kv :
  kv ∈ obj_replace k v o -> kv = (k, v) \/ kv ∈ o.
Proof.
  induction o as [|[k' v'] o IH]; simpl; [auto|].
  destruct (String.eqb k' k); intros H; apply elem_of_cons in H as [->|H].
  - auto.
  - right. now apply list_elem_of_further.
  - right. apply list_elem_of_here.
  - destruct (IH H); [auto | right; now apply list_elem_of_further].
Qed.

Lemma elem_obj_insert_index {V : Type} n k (v : V) o kv :
  kv ∈ obj_insert_index n k v o -> kv = (k, v) \/ kv ∈ o.
Proof.
  induction o as [|[k' v'] o IH]; simpl.
  - intros H. apply list_elem_of_singleton in H. auto.
  - destruct (array_index k') as [n'|]; [destruct (n' <? n)%N|];
      intros H; apply elem_of_cons in H as [->|H]; auto.
    + right. apply list_elem_of_here.
    + destruct (IH H); [auto | right; now apply list_elem_of_further].
Qed.

Lemma elem_obj_set {V : Type} k (v : V) o kv :
  kv ∈ obj_set k v o -> kv = (k, v) \/ kv ∈ o.
Proof.
  unfold obj_set. destruct (obj_get k o); [apply elem_obj_replace|].
  destruct (array_index k); [apply elem_obj_insert_index|].
  intros H. apply elem_of_app in H as [H|H]; [auto|].
  apply list_elem_of_singleton in H. auto.
Qed.

Lemma obj_set_keeps {V : Type} k k0 (v : V) o :
  is_Some (obj_get k0 o) -> is_Some (obj_get k0 (obj_set k v o)).
Proof. rewrite obj_get_set. destruct (String.eqb k k0); eauto. Qed.

Lemma find_match_elem p os ms a m :
  find_match p os ms = Some (a, m) -> exists k, (k, a) ∈ ms.
Proof.
  induction ms as [|[k b] ms IH]; simpl; [discriminate|].
  assert (Hrest : find_match p os ms = Some (a, m) ->
                  exists k0, (k0, a) ∈ (k, b) :: ms).
  { intros H. destruct (IH H) as [k0 Hk0]. exists k0.
    now apply list_elem_of_further. }
  destruct (os !! b) as [x|]; [|exact Hrest].
  destruct (p x); [|exact Hrest].
  intros [= -> ->]. exists k. apply list_elem_of_here.
Qed.

(** In a world that is [store_ok], the key of a meta is a key of the
    store. *)
Lemma store_ok_get w s meta :
  store_ok w -> socketsMeta w !! s = Some meta ->
  ref_truthy (matchId meta) = true ->
  is_Some (get_match w (property_key (matchId meta))).
Proof.
  intros [Hkeys Hmetas] Hmeta Ht.
  destruct (matchId meta) as [| |k] eqn:E; try discriminate.
  destruct (Hmetas s meta k Hmeta E) as [a Ha].
  destruct (Hkeys k a (obj_get_elem _ _ _ Ha)) as (m & Hm & _).
  exists (a, m). unfold get_match. cbn. rewrite Ha, Hm. reflexivity.
Qed.

Lemma pair_players_store rev h sA sB w w' :
  pair_players rev h sA sB w = Done w' -> store_ok w -> store_ok w'.
Proof.
  intros Hp [Hkeys Hmetas].
  assert (Hnew : forall m0 metaA metaB,
    let id := fresh_id h (n_id w) in
    match_id m0 = id ->
    store_ok
      (with_socketsMeta
         (<[sB := assign_match id role_B metaB]>
            (<[sA := assign_match id role_A metaA]> (socketsMeta w)))
         (with_matches (obj_set id (length (objs w)) (matches w))
            (with_objs (objs w ++ [m0]) w)))).
  { intros m0 metaA metaB id Hid. split; cbn.
    - intros k a Hin. apply elem_obj_set in Hin as [E|Hin].
      + injection E as -> ->. exists m0. split; [|exact Hid].
        rewrite lookup_app_r by lia.
        replace (length (objs w) - length (objs w))%nat with 0%nat by lia.
        reflexivity.
      + destruct (Hkeys k a Hin) as (m & Hm & Hk). exists m.
        split; [|exact Hk]. rewrite lookup_app_l; [exact Hm|].
        eapply lookup_lt_Some; eauto.
    - intros s meta k Hs Hk. rewrite !lookup_insert in Hs.
      repeat case_decide.
      + injection Hs as <-. cbn in Hk. injection Hk as <-.
        rewrite obj_get_set, String.eqb_refl. eauto.
      + injection Hs as <-. cbn in Hk. injection Hk as <-.
        rewrite obj_get_set, String.eqb_refl. eauto.
      + apply obj_set_keeps. eauto. }
  unfold pair_players, createMatch in Hp. destruct rev; cbn in Hp.
  - destruct (socketsMeta w !! sA) as [metaA|]; cbn in Hp; [|discriminate].
    destruct (_ !! sB) as [metaB|]; cbn in Hp; [|discriminate].
    injection Hp as <-.
    destruct (Hnew
      (set_status playing (set_players_B (Some sB) (set_players_A (Some sA)
         {| match_id := fresh_id h (n_id w); status := waiting;
            match_type := public; code := None; players_A := None;
            players_B := None; spectators := []; round := 1; maxRounds := 5;
            score_A := 0; score_B := 0; turn := A;
            pending_kick := None; pending_dive := None |})))
      metaA metaB eq_refl) as [H1 H2].
    split; cbn; [|exact H2].
    rewrite list_insert_insert_eq, insert_last. exact H1.
  - injection Hp as <-.
    destruct (Hnew
      (set_status playing (set_players_B (Some sB) (set_players_A (Some sA)
         {| match_id := fresh_id h (n_id w); status := waiting;
            match_type := public; code := None; players_A := None;
            players_B := None; spectators := []; round := 1; maxRounds := 5;
            score_A := 0; score_B := 0; turn := A;
            pending_kick := None; pending_dive := None |})))
      (meta_or_empty w sA) (meta_or_empty w sB) eq_refl) as [H1 H2].
    split; cbn; [|exact H2].
    rewrite list_insert_insert_eq, insert_last. exact H1.
Qed.

Lemma step_store rev h ev w w' :
  world_ok w -> store_ok w -> step rev h ev w = Done w' -> store_ok w'.
Proof.
  intros [_ [Hlen Hreg]] [Hkeys Hmetas] Hstep.
  pose proof (step_extends rev h ev w) as Hext.
  rewrite Hstep in Hext. cbn [world_of] in Hext. destruct Hext as [Hold _].
  destruct ev as [s e].
  assert (Hsame : matches w' = matches w ->
            forall k a, (k, a) ∈ matches w' ->
                        exists m, objs w' !! a = Some m /\ match_id m = k).
  { intros E k a Hin. rewrite E in Hin.
    destruct (Hkeys k a Hin) as (m & Hm & Hid).
    destruct (Hold a m Hm) as (m' & Hm' & Hev). exists m'.
    split; [exact Hm'|]. destruct Hev as [-> _]. exact Hid. }
  assert (Hrefs : (forall k, is_Some (obj_get k (matches w)) ->
                             is_Some (obj_get k (matches w'))) ->
            (forall s0 meta, socketsMeta w' !! s0 = Some meta ->
               socketsMeta w !! s0 = Some meta \/
               forall k, matchId meta = ref_key k ->
                         is_Some (obj_get k (matches w'))) ->
            forall s0 meta k, socketsMeta w' !! s0 = Some meta ->
              matchId meta = ref_key k -> is_Some (obj_get k (matches w'))).
  { intros Hmono Hnew s0 meta k Hs0 Hk.
    destruct (Hnew s0 meta Hs0) as [Hw|Hw]; [|auto].
    apply Hmono. eauto. }
  assert (Hown : forall k, matchId (meta_or_empty w s) = ref_key k ->
                           is_Some (obj_get k (matches w))).
  { intros k. unfold meta_or_empty.
    destruct (socketsMeta w !! s) as [meta|] eqn:E; cbn; [eauto | discriminate]. }
  assert (Hput : forall meta0,
            matches w' = matches w ->
            socketsMeta w' = <[s := meta0]> (socketsMeta w) ->
            (forall k, matchId meta0 = ref_key k ->
                       is_Some (obj_get k (matches w))) ->
            store_ok w').
  { intros meta0 Em Es Hk. split; [apply Hsame, Em|].
    apply Hrefs; [rewrite Em; auto|].
    intros s0 meta Hs0. rewrite Es, lookup_insert in Hs0.
    case_decide; [|auto]. injection Hs0 as <-. right. rewrite Em. exact Hk. }
  assert (Hkeep : matches w' = matches w -> socketsMeta w' = socketsMeta w ->
                  store_ok w').
  { intros Em Es. split; [apply Hsame, Em|].
    apply Hrefs; [rewrite Em; auto|]. intros s0 meta Hs0.
    left. rewrite <- Es. exact Hs0. }
  destruct e; cbn [step] in Hstep.
  - (* connection *)
    injection Hstep as <-. eapply Hput; [reflexivity | reflexivity |].
    intros k Hk. discriminate.
  - (* hello *)
    unfold hello in Hstep. destruct rev.
    + destruct payload as [[u n]|]; [|discriminate].
      destruct (truthy u); [|discriminate].
      injection Hstep as <-. eapply Hput; [reflexivity | reflexivity |].
      exact Hown.
    + destruct (default _ payload) as [u n].
      destruct (negb (String.eqb _ "")); injection Hstep as <-;
        (eapply Hput; [reflexivity | reflexivity | exact Hown]).
  - (* join_queue *)
    destruct (socketsMeta w !! s) as [meta|] eqn:Hmeta.
    2:{ unfold join_queue in Hstep. rewrite Hmeta in Hstep.
        injection Hstep as <-. apply Hkeep; reflexivity. }
    destruct (queue w) as [|x [|y q]] eqn:Hq; [| |simpl in Hlen; lia].
    + rewrite (join_queue_first rev h s w Hq) in Hstep by eauto.
      injection Hstep as <-. apply Hkeep; reflexivity.
    + destruct (pair_players_spec rev h x s (with_queue [] w))
        as (w2 & m & Hp & _).
      { apply Hreg. apply list_elem_of_here. }
      { cbn. eauto. }
      rewrite (join_queue_second rev h s x w w2 Hq) in Hstep by eauto.
      injection Hstep as <-.
      apply (pair_players_store rev h x s (with_queue [] w) w2 Hp).
      split; assumption.
  - (* create_private *)
    unfold create_private, createMatch in Hstep. cbn in Hstep.
    injection Hstep as <-. split; cbn.
    + intros k a Hin. apply elem_obj_set in Hin as [E|Hin].
      * injection E as -> ->. eexists. rewrite insert_last.
        rewrite lookup_app_r by lia.
        replace (length (objs w) - length (objs w))%nat with 0%nat by lia.
        split; reflexivity.
      * destruct (Hkeys k a Hin) as (m & Hm & Hk). exists m.
        split; [|exact Hk]. rewrite insert_last.
        rewrite lookup_app_l; [exact Hm | eapply lookup_lt_Some; eauto].
    + intros s0 meta k Hs0 Hk. rewrite lookup_insert in Hs0. case_decide.
      * injection Hs0 as <-. cbn in Hk. injection Hk as <-.
        rewrite obj_get_set, String.eqb_refl. eauto.
      * apply obj_set_keeps. eauto.
  - (* join_by_code *)
    unfold join_by_code in Hstep. destruct payload as [c|]; [|discriminate].
    destruct (find_match _ _ _) as [[a m]|] eqn:F.
    2:{ injection Hstep as <-. apply Hkeep; reflexivity. }
    destruct (find_match_elem _ _ _ _ _ F) as [k Hin].
    apply find_match_lookup in F as [Hm _].
    destruct (Hkeys k a Hin) as (m2 & Hm2 & Hid).
    assert (m2 = m) by congruence. subst m2.
    destruct (players_B m) eqn:HB.
    { injection Hstep as <-. apply Hkeep; reflexivity. }
    destruct (startIfReady _) as [m1 out]. injection Hstep as <-.
    eapply Hput; [reflexivity | reflexivity |].
    intros k0 Hk0. cbn in Hk0. injection Hk0 as <-. rewrite Hid.
    eapply elem_obj_get; eauto.
  - (* spectate_join *)
    unfold spectate_join, matches_at in Hstep.
    destruct payload as [k|]; [|discriminate].
    destruct (get_match w k) as [[a m]|] eqn:G.
    2:{ destruct (inherited k); [discriminate|].
        injection Hstep as <-. apply Hkeep; reflexivity. }
    destruct (bool_decide _).
    { injection Hstep as <-. apply Hkeep; reflexivity. }
    injection Hstep as <-.
    eapply Hput; [reflexivity | reflexivity |].
    intros k0 Hk0. cbn in Hk0. injection Hk0 as <-.
    unfold get_match in G. destruct (obj_get k (matches w)); [eauto | discriminate].
  - (* kick *)
    unfold kick, matches_at in Hstep.
    destruct payload as [[x y]|]; [|discriminate].
    destruct (socketsMeta w !! s) as [meta|];
      [|injection Hstep as <-; apply Hkeep; reflexivity].
    destruct (get_match w _) as [[a m]|];
      [|destruct (inherited _); injection Hstep as <-; apply Hkeep; reflexivity].
    destruct (negb _); [injection Hstep as <-; apply Hkeep; reflexivity|].
    destruct (negb _); [injection Hstep as <-; apply Hkeep; reflexivity|].
    injection Hstep as <-.
    destruct (resolve_if_ready_registry rev h a
                (set_pending (Some (stored_kick h x y)) (pending_dive m) m) w)
      as (_ & Es & Em).
    apply Hkeep; assumption.
  - (* dive *)
    unfold dive, matches_at in Hstep.
    destruct payload as [x|]; [|discriminate].
    destruct (socketsMeta w !! s) as [meta|];
      [|injection Hstep as <-; apply Hkeep; reflexivity].
    destruct (get_match w _) as [[a m]|];
      [|destruct (inherited _); injection Hstep as <-; apply Hkeep; reflexivity].
    destruct (negb _); [injection Hstep as <-; apply Hkeep; reflexivity|].
    destruct (negb _); [injection Hstep as <-; apply Hkeep; reflexivity|].
    injection Hstep as <-.
    destruct (resolve_if_ready_registry rev h a
                (set_pending (pending_kick m) (Some (normalized x)) m) w)
      as (_ & Es & Em).
    apply Hkeep; assumption.
  - (* disconnect *)
    assert (Hdel : matches w' = matches w ->
                   socketsMeta w' = delete s (socketsMeta w) -> store_ok w').
    { intros Em Es. split; [apply Hsame, Em|].
      apply Hrefs; [rewrite Em; auto|]. intros s0 meta Hs0. left.
      rewrite Es in Hs0. apply lookup_delete_Some in Hs0 as [_ Hs0].
      exact Hs0. }
    unfold disconnect, matches_at in Hstep.
    destruct (socketsMeta w !! s) as [meta|];
      [|injection Hstep as <-; apply Hdel; reflexivity].
    destruct (ref_truthy _);
      [|injection Hstep as <-; apply Hdel; reflexivity].
    destruct (get_match _ _) as [[a m]|];
      [|destruct (inherited _); [discriminate|];
        injection Hstep as <-; apply Hdel; reflexivity].
    destruct (bool_decide _); injection Hstep as <-; apply Hdel; reflexivity.
Qed.

Lemma reachable_store rev h w : reachable rev h w -> store_ok w.
Proof.
  induction 1 as [|w ev w' Hr IH Hs].
  - split.
    + intros k a Hin. inversion Hin.
    + intros s meta k Hm. cbn in Hm. rewrite lookup_empty in Hm. discriminate.
  - eapply step_store; eauto. eapply reachable_ok; eauto.
Qed.




(** ** Disconnection of a player *)

(** X21.  When a player of a match that is not finished disconnects, the
    match is finished with the scores as they stand and the other seat is
    declared the winner, with the reason [opponent_disconnected]; the same
    [match_over] goes to both seats and to every spectator. *)
Theorem leaving_player_loses s w meta a m seat :
  socketsMeta w !! s = Some meta -> ref_truthy (matchId meta) = true ->
  get_match w (property_key (matchId meta)) = Some (a, m) ->
  status m <> finished ->
  players m seat = Some s -> players m (other seat) <> Some s ->
  let over :=
    match_over (winner_slot (other seat)) (score m) opponent_disconnected in
  exists w',
    disconnect s w = Done w' /\
    objs w' !! a = Some (set_status finished m) /\
    emitted w' = emitted w
      ++ [ (players_A m, over); (players_B m, over) ]
      ++ to_spectators m over.
Proof.
  intros Hmeta Ht Hget Hst Hseat Hother over. unfold disconnect, matches_at.
  rewrite Hmeta, Ht.
  change (get_match (with_queue _ (with_socketsMeta _ w)) ?k)
    with (get_match w k).
  rewrite Hget. rewrite (bool_decide_eq_false_2 _ Hst).
  assert (Hw : (if bool_decide (players_A (set_status finished m) = Some s)
                then B else A) = other seat).
  { cbn. destruct seat; simpl in *.
    - rewrite (bool_decide_eq_true_2 _ Hseat). reflexivity.
    - rewrite (bool_decide_eq_false_2 _ Hother). reflexivity. }
  rewrite Hw.
  eexists. split; [reflexivity|]. split; [|reflexivity].
  cbn. apply list_lookup_insert_eq.
  apply get_match_lookup in Hget. eapply lookup_lt_Some; eauto.
Qed.

Lemma leaving_player_loses_witness :
  exists w',
    disconnect 2%nat watched_world = Done w' /\
    objs w' !! 0%nat = Some (set_status finished watched_match) /\
    emitted w' = emitted watched_world
      ++ [ (Some 1%nat, match_over (winner_slot A) (0, 0) opponent_disconnected);
           (Some 2%nat, match_over (winner_slot A) (0, 0) opponent_disconnected);
           (Some 3%nat, match_over (winner_slot A) (0, 0) opponent_disconnected) ].
Proof.
  apply (leaving_player_loses 2%nat watched_world
           {| uid := VNull; nick := VNull; matchId := ref_key "3f9a1c07";
              role := Some role_B |} 0%nat watched_match B).
  - vm_compute. reflexivity.
  - reflexivity.
  - vm_compute. reflexivity.
  - discriminate.
  - reflexivity.
  - discriminate.
Defined.

(** X22.  A disconnection always completes; it removes the socket from the
    registry and keeps every other entry, and in a reachable world the
    socket is no longer queued afterwards while any other queued socket
    still is. *)
Theorem disconnect_cleans_up rev h s w :
  reachable rev h w ->
  exists w',
    disconnect s w = Done w' /\
    socketsMeta w' !! s = None /\
    (forall x, x <> s -> socketsMeta w' !! x = socketsMeta w !! x) /\
    (s ∉ queue w') /\
    (forall x, x <> s -> x ∈ queue w -> x ∈ queue w').
Proof.
  intros Hr. destruct (reachable_ok rev h w Hr) as [_ [Hlen _]].
  destruct (remove_first_short s (queue w) Hlen) as (_ & Hnot & _).
  assert (Hkeep : forall x, x <> s -> x ∈ queue w -> x ∈ remove_first s (queue w)).
  { intros x Hx. clear Hnot Hlen. induction (queue w) as [|y q IH]; simpl; auto.
    intros Hin. case_bool_decide as Hy.
    - subst y. apply elem_of_cons in Hin as [->|Hin]; [contradiction | exact Hin].
    - apply elem_of_cons in Hin as [->|Hin];
        [apply list_elem_of_here | apply list_elem_of_further; auto]. }
  assert (Hall : forall w0,
            queue w0 = remove_first s (queue w) ->
            socketsMeta w0 = delete s (socketsMeta w) ->
            socketsMeta w0 !! s = None /\
            (forall x, x <> s -> socketsMeta w0 !! x = socketsMeta w !! x) /\
            (s ∉ queue w0) /\
            (forall x, x <> s -> x ∈ queue w -> x ∈ queue w0)).
  { intros w0 Eq Em. rewrite Eq, Em. split; [apply lookup_delete_eq|].
    split; [intros x Hx; apply lookup_delete_ne; congruence|].
    split; assumption. }
  unfold disconnect, matches_at.
  destruct (socketsMeta w !! s) as [meta|] eqn:Hmeta;
    [|eexists; split; [reflexivity | apply Hall; reflexivity]].
  destruct (ref_truthy _) eqn:Ht;
    [|eexists; split; [reflexivity | apply Hall; reflexivity]].
  destruct (store_ok_get w s meta (reachable_store rev h w Hr) Hmeta Ht)
    as [[a m] G].
  change (get_match (with_queue _ (with_socketsMeta _ w)) ?k)
    with (get_match w k).
  rewrite G.
  destruct (bool_decide _);
    eexists; (split; [reflexivity | apply Hall; reflexivity]).
Qed.

Lemma disconnect_cleans_up_witness :
  reachable server_js demo_host watched_world /\
  exists w',
    disconnect 1%nat watched_world = Done w' /\
    socketsMeta w' !! 1%nat = None.
Proof.
  split; [apply watched_reachable|].
  destruct (disconnect_cleans_up server_js demo_host 1%nat watched_world
              watched_reachable) as (w' & Hd & Hm & _).
  exists w'. split; assumption.
Defined.

(** ** The listing of public matches *)

Lemma values_in_store w m :
  m ∈ values w -> exists k a, (k, a) ∈ matches w /\ objs w !! a = Some m.
Proof.
  unfold values. intros Hin. apply list_elem_of_omap in Hin as ([k a] & Hka & Hm).
  exists k, a. auto.
Qed.

(** X23.  [GET /matches] shows only public matches of the store that are not
    finished, each with its own id, status, round, score and number of
    spectators; in a reachable world every match it shows is playing (a
    waiting private match is never listed) and every public playing match
    of the store is shown. *)
Theorem listing_shows_public_play rev h w :
  reachable rev h w ->
  (forall l, In l (publicMatchesSnapshot w) ->
     exists k a m,
       (k, a) ∈ matches w /\ objs w !! a = Some m /\ l = listing m /\
       match_type m = public /\ status m = playing /\
       listed_status l = playing /\
       listed_spectators l = length (spectators m)) /\
  (forall k a m,
     (k, a) ∈ matches w -> objs w !! a = Some m ->
     match_type m = public -> status m = playing ->
     In (listing m) (publicMatchesSnapshot w)).
Proof.
  intros Hr. split.
  - intros l Hin. unfold publicMatchesSnapshot in Hin.
    apply in_map_iff in Hin as (m & <- & Hm).
    apply filter_In in Hm as [Hm Hl].
    apply list_elem_of_In, values_in_store in Hm as (k & a & Hka & Ho).
    unfold listable in Hl. apply andb_prop in Hl as [Hpub Hnf].
    apply bool_decide_eq_true in Hpub.
    apply Bool.negb_true_iff, bool_decide_eq_false in Hnf.
    destruct (reachable_ok rev h w Hr) as [Hobj _].
    destruct (proj1 (Forall_lookup _ _) Hobj a m Ho)
      as (_ & _ & _ & _ & _ & Hw & _).
    assert (Hs : status m = playing).
    { destruct (status m) eqn:Es; [|reflexivity|contradiction].
      destruct (Hw eq_refl) as [Hpriv _]. congruence. }
    exists k, a, m. repeat split; auto.
  - intros k a m Hka Ho Hpub Hs. unfold publicMatchesSnapshot.
    apply in_map, filter_In. split.
    + apply list_elem_of_In. unfold values. apply list_elem_of_omap.
      exists (k, a). auto.
    + unfold listable. rewrite (bool_decide_eq_true_2 _ Hpub).
      rewrite bool_decide_eq_false_2 by congruence. reflexivity.
Qed.

Lemma listing_shows_public_play_witness :
  reachable server_js demo_host tied_world /\
  In (listing tied_match) (publicMatchesSnapshot tied_world) /\
  publicMatchesSnapshot watched_world = [].
Proof.
  split; [apply tied_reachable|]. split; [|vm_compute; reflexivity].
  apply (proj2 (listing_shows_public_play server_js demo_host tied_world
                  tied_reachable) "3f9a1c07" 0%nat tied_match).
  - vm_compute. apply list_elem_of_here.
  - apply tied_lookup.
  - reflexivity.
  - reflexivity.
Defined.

(** ** The handshake and the queue *)

(** X24.  A [hello] only writes the identity of its socket: whether it
    completes or throws, in either revision, the matches, the store and the
    queue are untouched, the other sockets keep their meta, and the socket
    keeps the match and the role its meta had. *)
Theorem hello_only_sets_identity rev h s payload w :
  let w' := world_of (hello rev h s payload w) in
  objs w' = objs w /\ matches w' = matches w /\ queue w' = queue w /\
  (forall x, x <> s -> socketsMeta w' !! x = socketsMeta w !! x) /\
  (forall meta, socketsMeta w !! s = Some meta ->
     exists meta', socketsMeta w' !! s = Some meta' /\
                   matchId meta' = matchId meta /\ role meta' = role meta).
Proof.
  assert (Hset : forall u n w0,
            objs w0 = objs w -> matches w0 = matches w -> queue w0 = queue w ->
            socketsMeta w0
              = <[s := assign_identity u n (meta_or_empty w s)]> (socketsMeta w) ->
            objs w0 = objs w /\ matches w0 = matches w /\ queue w0 = queue w /\
            (forall x, x <> s -> socketsMeta w0 !! x = socketsMeta w !! x) /\
            (forall meta, socketsMeta w !! s = Some meta ->
               exists meta', socketsMeta w0 !! s = Some meta' /\
                 matchId meta' = matchId meta /\ role meta' = role meta)).
  { intros u n w0 Ho Hm Hq Hs. repeat split; try assumption.
    - intros x Hx. rewrite Hs. apply lookup_insert_ne. congruence.
    - intros meta Hmeta. rewrite Hs. eexists.
      split; [apply lookup_insert_eq|].
      unfold meta_or_empty. rewrite Hmeta. split; reflexivity. }
  assert (Hsame : objs w = objs w /\ matches w = matches w /\ queue w = queue w /\
            (forall x, x <> s -> socketsMeta w !! x = socketsMeta w !! x) /\
            (forall meta, socketsMeta w !! s = Some meta ->
               exists meta', socketsMeta w !! s = Some meta' /\
                 matchId meta' = matchId meta /\ role meta' = role meta))
    by (repeat split; eauto).
  unfold hello. destruct rev.
  - destruct payload as [[u n]|]; [|exact Hsame].
    destruct (truthy u); [|exact Hsame].
    cbn [world_of]. eapply Hset; reflexivity.
  - destruct (default _ payload) as [u n].
    destruct (negb (String.eqb _ "")); cbn [world_of]; eapply Hset; reflexivity.
Qed.

(** X25.  Nothing stops a socket from queueing twice: a registered socket
    that sends [join_queue] two times in a row on an empty queue is paired
    with itself, in a public match that is already playing with the socket
    in both seats. *)
Theorem socket_can_be_paired_with_itself rev h s w :
  queue w = [] -> is_Some (socketsMeta w !! s) ->
  exists w' m,
    run rev h [(s, on_join_queue); (s, on_join_queue)] w = Done w' /\
    objs w' = objs w ++ [m] /\ queue w' = [] /\
    match_type m = public /\ status m = playing /\
    players_A m = Some s /\ players_B m = Some s.
Proof.
  intros Hq Hs.
  destruct (pair_players_spec rev h s s (with_queue [] (with_queue [s] w)))
    as (w2 & m & Hp & Ho & Hq2 & T & S & PA & PB & _); [assumption..|].
  cbn in Ho, Hq2. exists w2, m. split.
  - cbn [run step]. rewrite (join_queue_first rev h s w Hq Hs).
    rewrite (join_queue_second rev h s s (with_queue [s] w) w2 eq_refl Hs Hp).
    reflexivity.
  - repeat split; assumption.
Qed.

Lemma socket_can_be_paired_with_itself_witness :
  queue four_connected = [] /\
  exists w' m,
    run server_js demo_host [(1%nat, on_join_queue); (1%nat, on_join_queue)]
      four_connected = Done w' /\
    objs w' = [m] /\ players_A m = Some 1%nat /\ players_B m = Some 1%nat.
Proof.
  split; [reflexivity|].
  destruct (socket_can_be_paired_with_itself server_js demo_host 1%nat
              four_connected) as (w' & m & Hrun & Ho & _ & _ & _ & PA & PB).
  - reflexivity.
  - vm_compute. eauto.
  - exists w', m. repeat split; assumption.
Defined.

(** ** Start *)

(** X26.  [startIfReady] starts a match once: it does nothing to a match
    that is not waiting or lacks a player, and called again on the match it
    has just started it changes nothing and emits nothing. *)
Theorem startIfReady_starts_once m :
  (status m <> waiting \/ players_A m = None \/ players_B m = None ->
   startIfReady m = (m, [])) /\
  startIfReady (startIfReady m).1 = ((startIfReady m).1, []) /\
  (status m = waiting -> is_Some (players_A m) -> is_Some (players_B m) ->
   status (startIfReady m).1 = playing /\
   In (players_A m, match_start (match_id m) A (maxRounds m)) (startIfReady m).2 /\
   In (players_B m, match_start (match_id m) B (maxRounds m)) (startIfReady m).2).
Proof.
  unfold startIfReady. split; [|split].
  - intros [Hs | [HA | HB]].
    + destruct (players_A m), (players_B m), (status m);
        try reflexivity; contradiction.
    + rewrite HA. reflexivity.
    + rewrite HB. destruct (players_A m); reflexivity.
  - destruct (players_A m) eqn:HA, (players_B m) eqn:HB, (status m) eqn:Hs;
      cbn; rewrite ?HA, ?HB, ?Hs; reflexivity.
  - intros Hs [x HA] [y HB]. rewrite HA, HB, Hs. cbn. rewrite HA, HB.
    split; [reflexivity|]. split; [left; reflexivity | right; left; reflexivity].
Qed.

(** ** Scores along a run *)

Lemma not_lower_refl m : not_lower m m.
Proof. unfold not_lower. lia. Qed.

Lemma not_lower_trans m1 m2 m3 :
  not_lower m1 m2 -> not_lower m2 m3 -> not_lower m1 m3.
Proof. unfold not_lower. lia. Qed.

Lemma resolveShot_not_lower rev rnd m k d :
  not_lower m (resolveShot rev rnd m k d).1.1.
Proof.
  unfold not_lower. shot_cases rev rnd m k d.
  all: rewrite ?Ht; simpl; lia.
Qed.

Lemma step_not_lower rev h ev w :
  heap_rel not_lower (objs w) (objs (world_of (step rev h ev w))).
Proof.
  destruct ev as [s e].
  apply (step_heap_rel not_lower not_lower_refl not_lower_trans)
    with (shots := true); auto.
  - intros m s0 Hs. unfold startIfReady. cbn.
    destruct (players_A m); rewrite ?Hs; cbn; unfold not_lower; cbn; lia.
  - intros m v _. unfold not_lower; cbn; lia.
  - intros m _. unfold not_lower; cbn; lia.
  - intros _ m k d _. unfold not_lower; cbn; lia.
  - intros _ rev0 rnd m k d _. apply resolveShot_not_lower.
Qed.

(** X27.  Along every run, in either revision, neither score of a match nor
    its round ever goes down. *)
Theorem scores_never_go_down rev h evs w a m :
  objs w !! a = Some m ->
  exists m',
    objs (world_of (run rev h evs w)) !! a = Some m' /\
    score_A m <= score_A m' /\ score_B m <= score_B m' /\ round m <= round m'.
Proof.
  revert w m. induction evs as [|ev evs IH]; intros w m Hm; cbn [run].
  - exists m. repeat split; auto; lia.
  - destruct (step_not_lower rev h ev w a m Hm) as (m1 & Hm1 & L1).
    destruct (step rev h ev w) as [w'|w']; cbn [world_of] in *.
    + destruct (IH w' m1 Hm1) as (m2 & Hm2 & L2).
      exists m2. split; [assumption|].
      exact (not_lower_trans _ _ _ L1 L2).
    + exists m1. split; [assumption|]. exact L1.
Qed.

Lemma scores_never_go_down_witness :
  objs watched_world !! 0%nat = Some watched_match /\
  exists m',
    objs (world_of (run server_js demo_host (shot_by A "left") watched_world))
      !! 0%nat = Some m' /\
    score_A watched_match <= score_A m' /\
    score_B watched_match <= score_B m' /\ round watched_match <= round m'.
Proof.
  split; [apply watched_lookup|].
  exact (scores_never_go_down server_js demo_host (shot_by A "left")
           watched_world 0%nat watched_match watched_lookup).
Defined.

Lemma startIfReady_starts_once_witness :
  status (startIfReady (set_status waiting watched_match)).1 = playing /\
  startIfReady watched_match = (watched_match, []).
Proof.
  split.
  - apply (proj2 (proj2 (startIfReady_starts_once
                           (set_status waiting watched_match))));
      [reflexivity | eexists; reflexivity | eexists; reflexivity].
  - apply (proj1 (startIfReady_starts_once watched_match)).
    left. discriminate.
Defined.

(** ** The winner that is announced *)

Lemma names_pushTurn m : Forall names_a_winner (pushTurn m).
Proof.
  unfold pushTurn. repeat (apply List.Forall_cons; [exact I|]).
  apply to_spectators_Forall. intros ?. exact I.
Qed.

Lemma names_startIfReady m : Forall names_a_winner (startIfReady m).2.
Proof.
  unfold startIfReady.
  destruct (players_A m), (players_B m), (status m); cbn;
    try apply Forall_nil_2.
  repeat (apply List.Forall_cons; [exact I|]).
  apply to_spectators_Forall. intros ?. exact I.
Qed.

Lemma names_resolveShot rev rnd m k d :
  Forall names_a_winner (resolveShot rev rnd m k d).1.2.
Proof.
  shot_cases rev rnd m k d.
  all: repeat match goal with
         | H : negb (_ =? _) = true |- _ =>
             apply Bool.negb_true_iff, Z.eqb_neq in H
         | H : (_ >? _) = false |- _ =>
             rewrite Z.gtb_ltb in H; apply Z.ltb_ge in H
         end.
  all: try lia.
  all: repeat (apply List.Forall_cons; [exact I|]).
  all: apply Forall_app; split;
         [apply to_spectators_Forall; intros ?; exact I|].
  all: try (repeat (apply List.Forall_cons; [exact I|]);
            apply to_spectators_Forall; intros ?; exact I).
  all: repeat match goal with
         | |- context [?a >? ?b] => destruct (Z.gtb_spec a b); try lia
         end.
  all: repeat (apply List.Forall_cons; [exact I|]).
  all: apply to_spectators_Forall; intros ?; exact I.
Qed.

Lemma resolve_if_ready_emits rev h a m w :
  exists out,
    emitted (resolve_if_ready rev h a m w) = emitted w ++ out /\
    Forall names_a_winner out.
Proof.
  unfold resolve_if_ready.
  destruct (pending_kick m) as [k|], (pending_dive m) as [d|];
    try (exists []; split; [cbn; rewrite app_nil_r; reflexivity
                            | apply Forall_nil_2]).
  pose proof (names_resolveShot rev (fun i => Math_random h (n_random w + i))
                m k d) as Hn.
  destruct (resolveShot _ _ _ _ _) as [[m' out] n].
  exists out. split; [reflexivity | exact Hn].
Qed.

Lemma pairing_emits rev h q w :
  exists out,
    emitted (world_of (pairing rev h q w)) = emitted w ++ out /\
    Forall names_a_winner out.
Proof.
  revert w. induction q as [q IH] using (induction_ltof1 _ (@length _)).
  unfold ltof in IH. intros w.
  assert (Hnil : exists out, emitted w = emitted w ++ out
                             /\ Forall names_a_winner out)
    by (exists []; split; [rewrite app_nil_r; reflexivity | apply Forall_nil_2]).
  destruct q as [|sA [|sB rest]]; simpl; try exact Hnil.
  assert (Hp : exists out,
             emitted (world_of (pair_players rev h sA sB (with_queue rest w)))
             = emitted w ++ out /\ Forall names_a_winner out).
  { unfold pair_players, createMatch. destruct rev; cbn.
    1: destruct (socketsMeta w !! sA); cbn; [|exact Hnil].
    1: destruct (_ !! sB); cbn; [|exact Hnil].
    all: eexists; split; [reflexivity|].
    all: repeat (apply List.Forall_cons; [exact I|]); apply Forall_nil_2. }
  destruct (pair_players rev h sA sB (with_queue rest w)) as [w'|w'];
    simpl in Hp; [|exact Hp].
  destruct Hp as (out1 & E1 & F1).
  destruct (IH rest ltac:(simpl; lia) w') as (out2 & E2 & F2).
  exists (out1 ++ out2). rewrite E2, E1, app_assoc.
  split; [reflexivity | apply Forall_app; auto].
Qed.

Lemma step_emits rev h ev w :
  exists out,
    emitted (world_of (step rev h ev w)) = emitted w ++ out /\
    Forall names_a_winner out.
Proof.
  assert (Hnil : exists out, emitted w = emitted w ++ out
                             /\ Forall names_a_winner out)
    by (exists []; split; [rewrite app_nil_r; reflexivity | apply Forall_nil_2]).
  assert (Hone : forall e, names_a_winner e ->
            exists out, emitted w ++ [e] = emitted w ++ out
                        /\ Forall names_a_winner out).
  { intros e He. exists [e]. split; [reflexivity|].
    apply List.Forall_cons; [exact He | apply Forall_nil_2]. }
  destruct ev as [s e]. destruct e; cbn [step].
  - exact Hnil.
  - unfold hello. destruct rev.
    + destruct payload as [[u n]|]; [|exact Hnil].
      destruct (truthy u); [|exact Hnil]. apply Hone. exact I.
    + destruct (default _ payload) as [u n].
      destruct (negb (String.eqb _ "")); apply Hone; exact I.
  - unfold join_queue. destruct (socketsMeta w !! s); [|exact Hnil].
    apply (pairing_emits rev h _ (with_queue (queue w ++ [s]) w)).
  - unfold create_private, createMatch. cbn. apply Hone. exact I.
  - unfold join_by_code. destruct payload as [c|]; [|exact Hnil].
    destruct (find_match _ _ _) as [[a m]|]; [|apply Hone; exact I].
    destruct (players_B m); [apply Hone; exact I|].
    pose proof (names_startIfReady (set_players_B (Some s) m)) as Hn.
    destruct (startIfReady _) as [m1 out]. cbn in *. eauto.
  - unfold spectate_join, matches_at. destruct payload as [k|]; [|exact Hnil].
    destruct (get_match w k) as [[a m]|];
      [|destruct (inherited _); [exact Hnil | apply Hone; exact I]].
    destruct (bool_decide _); apply Hone; exact I.
  - unfold kick, matches_at. destruct payload as [[x y]|]; [|exact Hnil].
    destruct (socketsMeta w !! s) as [meta|]; [|exact Hnil].
    destruct (get_match w _) as [[a m]|]; [|destruct (inherited _); try discriminate; exact Hnil].
    destruct (negb _); [exact Hnil|].
    destruct (negb _); [exact Hnil|]. apply resolve_if_ready_emits.
  - unfold dive, matches_at. destruct payload as [x|]; [|exact Hnil].
    destruct (socketsMeta w !! s) as [meta|]; [|exact Hnil].
    destruct (get_match w _) as [[a m]|]; [|destruct (inherited _); try discriminate; exact Hnil].
    destruct (negb _); [exact Hnil|].
    destruct (negb _); [exact Hnil|]. apply resolve_if_ready_emits.
  - unfold disconnect, matches_at. destruct (socketsMeta w !! s) as [meta|]; [|exact Hnil].
    destruct (ref_truthy _); [|exact Hnil].
    destruct (get_match _ _) as [[a m]|]; [|destruct (inherited _); try discriminate; exact Hnil].
    destruct (bool_decide _); [exact Hnil|]. cbn.
    eexists. split; [reflexivity|].
    repeat (apply List.Forall_cons; [exact I|]).
    apply to_spectators_Forall. intros x. exact I.
Qed.

(** X28.  The log of emitted events only grows, and no [match_over] in it
    ever announces a draw: [resolveShot] finishes a match only when the
    scores differ and a disconnection names the other seat, so the ['draw']
    of [finishMatch] is never sent. *)
Theorem no_draw_is_ever_announced rev h evs w :
  Forall names_a_winner (emitted w) ->
  exists out,
    emitted (world_of (run rev h evs w)) = emitted w ++ out /\
    Forall names_a_winner (emitted (world_of (run rev h evs w))).
Proof.
  revert w. induction evs as [|ev evs IH]; intros w Hw; cbn [run].
  - exists []. split; [rewrite app_nil_r; reflexivity | exact Hw].
  - destruct (step_emits rev h ev w) as (out1 & E1 & F1).
    destruct (step rev h ev w) as [w'|w']; cbn [world_of] in *.
    + destruct (IH w') as (out2 & E2 & F2).
      { rewrite E1. apply Forall_app; auto. }
      exists (out1 ++ out2). rewrite E2, E1, app_assoc. rewrite <- E1, <- E2.
      split; [reflexivity | exact F2].
    + exists out1. split; [exact E1|]. rewrite E1. apply Forall_app; auto.
Qed.

Lemma no_draw_is_ever_announced_witness :
  Forall names_a_winner (emitted init) /\
  Forall names_a_winner
    (emitted (world_of (run server_js demo_host
                          (paired ++ regulation ++ shot_by A "left") init))).
Proof.
  split; [apply Forall_nil_2|].
  destruct (no_draw_is_ever_announced server_js demo_host
              (paired ++ regulation ++ shot_by A "left") init)
    as (out & _ & Hall); [apply Forall_nil_2 | exact Hall].
Defined.



(** ** Rooms *)

(** X30.  In a reachable world [join_by_code] never answers that the room
    is full: a waiting match has its slot B empty, since the handler that
    fills slot B starts the match at once.  The handler either refuses the
    code, changing nothing, or seats the caller in slot B of a waiting
    match, which starts. *)
Theorem room_is_never_full rev h w s v :
  reachable rev h w ->
  (exists w', join_by_code s (Some v) w = Done w' /\
              only_reports s invalid_code w w') \/
  (exists w' a m,
     join_by_code s (Some v) w = Done w' /\
     objs w !! a = Some m /\ status m = waiting /\ players_B m = None /\
     let m' := set_status playing (set_players_B (Some s) m) in
     objs w' !! a = Some m' /\
     emitted w'
     = emitted w
       ++ [ (players_A m, match_start (match_id m) A (maxRounds m));
            (Some s, match_start (match_id m) B (maxRounds m)) ]
       ++ pushTurn m').
Proof.
  intros Hr. destruct (reachable_ok rev h w Hr) as [Hobj _].
  unfold join_by_code.
  destruct (find_match _ _ _) as [[a m]|] eqn:F.
  2:{ left. eexists. split; [reflexivity|]. repeat split; reflexivity. }
  right. apply find_match_lookup in F as [Hm Hp].
  apply andb_prop in Hp as [_ Hs]. apply bool_decide_eq_true in Hs.
  destruct (proj1 (Forall_lookup _ _) Hobj a m Hm)
    as (_ & _ & _ & [pa HA] & _ & Hw & _).
  destruct (Hw Hs) as (_ & HB & _).
  rewrite HB. unfold startIfReady. simpl. rewrite HA, Hs. simpl.
  eexists. exists a, m. split; [reflexivity|].
  split; [exact Hm|]. split; [exact Hs|]. split; [exact HB|]. simpl.
  rewrite list_insert_insert_eq. split; [|rewrite ?HA; reflexivity].
  apply list_lookup_insert_eq. eapply lookup_lt_Some; eauto.
Qed.

Lemma room_is_never_full_witness :
  reachable server_js demo_host two_private_world /\
  ((exists w', join_by_code 3%nat (Some (VString "KC8SXD")) two_private_world
               = Done w' /\
               only_reports 3%nat invalid_code two_private_world w') \/
   (exists w' a m,
      join_by_code 3%nat (Some (VString "KC8SXD")) two_private_world = Done w' /\
      objs two_private_world !! a = Some m /\ status m = waiting /\
      players_B m = None /\
      let m' := set_status playing (set_players_B (Some 3%nat) m) in
      objs w' !! a = Some m' /\
      emitted w'
      = emitted two_private_world
        ++ [ (players_A m, match_start (match_id m) A (maxRounds m));
             (Some 3%nat, match_start (match_id m) B (maxRounds m)) ]
        ++ pushTurn m')).
Proof.
  split; [apply two_private_reachable|].
  exact (room_is_never_full server_js demo_host two_private_world 3%nat
           (VString "KC8SXD") two_private_reachable).
Defined.
